(** * text-on-canvas: extraction of textual content from a document tree

    A shallow embedding of the extraction half of [src/index.js]
    (everything above the "CREATING CANVAS" banner): the sentence
    splitter, the line buffer, the standalone decision for leaf elements
    and the container traversal, followed by the properties that the
    specification states about them. *)

From Stdlib Require Import String Ascii.
From Stdlib Require Import List NArith Bool Arith Lia.
Import ListNotations.

(** ** JavaScript strings

    A JavaScript string is a sequence of UTF-16 code units.  The source
    only indexes strings ([text[i]]) and applies regular expressions
    without the [u] flag, both of which work on code units. *)

Module JS.

Definition codeunit := N.
Definition jsstring := list codeunit.

(** Literals: the code units of an ASCII string. *)
Definition str (s : string) : jsstring :=
  map N_of_ascii (list_ascii_of_string s).

Definition NL : codeunit := 10%N.
Definition SP : codeunit := 32%N.

Definition in_range (lo hi c : codeunit) : bool :=
  (N.leb lo c && N.leb c hi)%bool.

(** [/[.;?!]/] on a single code unit ([PUNCTUATION_REGEX], line 3). *)
Definition is_punct (c : codeunit) : bool :=
  (N.eqb c 46 || N.eqb c 59 || N.eqb c 63 || N.eqb c 33)%N%bool.

(** [/\s/] on a single code unit: ECMAScript WhiteSpace and
    LineTerminator.  [String.prototype.trim] strips the same set. *)
Definition is_space (c : codeunit) : bool :=
  (in_range 9 13 c || N.eqb c 32 || N.eqb c 160 || N.eqb c 5760
   || in_range 8192 8202 c || N.eqb c 8232 || N.eqb c 8233
   || N.eqb c 8239 || N.eqb c 8287 || N.eqb c 12288
   || N.eqb c 65279)%N%bool.

(** [/\w/] on a single code unit: [[A-Za-z0-9_]]. *)
Definition is_word (c : codeunit) : bool :=
  (in_range 65 90 c || in_range 97 122 c || in_range 48 57 c
   || N.eqb c 95)%N%bool.

Fixpoint dropWhile (p : codeunit -> bool) (s : jsstring) : jsstring :=
  match s with
  | [] => []
  | c :: s' => if p c then dropWhile p s' else s
  end.

Definition trimStart (s : jsstring) : jsstring := dropWhile is_space s.
Definition trimEnd (s : jsstring) : jsstring :=
  rev (dropWhile is_space (rev s)).
Definition trim (s : jsstring) : jsstring := trimEnd (trimStart s).

(** Truthiness of a string: non-empty. *)
Definition truthy (s : jsstring) : bool :=
  match s with [] => false | _ => true end.

(** [PUNCTUATION_REGEX.test(line)]: some code unit is punctuation. *)
Definition test_punct (s : jsstring) : bool := existsb is_punct s.

(** [/^[^\w\s]/.test(s)] *)
Definition starts_nonword_nonspace (s : jsstring) : bool :=
  match s with
  | c :: _ => (negb (is_word c) && negb (is_space c))%bool
  | [] => false
  end.

(** [s.match(/^[.;?!]\s/)] is not null *)
Definition starts_punct_space (s : jsstring) : bool :=
  match s with
  | c :: d :: _ => (is_punct c && is_space d)%bool
  | _ => false
  end.

(** [text.split('\n')]: always at least one piece. *)
Fixpoint split_lines_aux (s : jsstring) (line : jsstring) : list jsstring :=
  match s with
  | [] => [line]
  | c :: s' =>
      if N.eqb c NL then line :: split_lines_aux s' []
      else split_lines_aux s' (line ++ [c])
  end.

(** [s.replace(/\n/g, ' ')] *)
Definition replace_newlines (s : jsstring) : jsstring :=
  map (fun c => if N.eqb c NL then SP else c) s.

(** [s.replace(/\s+/g, ' ')]: every maximal run of white space becomes
    one space.  [in_run] tells that the previous code unit was white
    space, so that the run has already been replaced. *)
Fixpoint collapse_from (in_run : bool) (s : jsstring) : jsstring :=
  match s with
  | [] => []
  | c :: s' =>
      if is_space c then
        if in_run then collapse_from true s' else SP :: collapse_from true s'
      else c :: collapse_from false s'
  end.

Definition collapse_spaces (s : jsstring) : jsstring := collapse_from false s.

End JS.

Import JS.

(** ** The sentence splitter *)

(** [splitBySentences], lines 29-59.  [text] is the part of the input
    from index [i] on.  The inner [fix] is the [while] loop of lines
    38-41; its argument [t] is the input from index [j] on.  After it
    the source sets [i = j - 1], so the outer loop goes on at [j], that
    is with [t]. *)
Fixpoint splitLoop (text : jsstring) (current : jsstring)
    (sentences : list jsstring) {struct text} : list jsstring :=
  match text with
  | [] =>
      (* lines 55-58 *)
      if truthy (trim current) then sentences ++ [current] else sentences
  | c :: rest =>
      let current := current ++ [c] in
      if is_punct c then
        (fix collect (t : jsstring) (current : jsstring) {struct t}
           : list jsstring :=
           match t with
           | [] =>
               (* j === text.length, lines 48-52 *)
               splitLoop t [] (sentences ++ [current])
           | d :: t' =>
               if is_punct d then collect t' (current ++ [d])
               else if is_space d then
                 (* white space after the run, lines 45-47 *)
                 splitLoop t [] (sentences ++ [current])
               else splitLoop t current sentences
           end) rest current
      else splitLoop rest current sentences
  end.

Definition splitBySentences (text : jsstring) : list jsstring :=
  splitLoop text [] [].

(** ** The document tree

    A node is a text node, an element or some other node (a comment),
    which the traversal ignores.  [cloneNode(true)] gives a structurally
    equal copy, so a clone is the element itself. *)

Inductive node : Type :=
| TextNode (data : jsstring)
| ElementNode (e : element)
| CommentNode (data : jsstring)
with element : Type :=
| Element (tagName : jsstring) (attributes : list (jsstring * jsstring))
    (childNodes : list node).

Definition tagName (e : element) : jsstring :=
  match e with Element t _ _ => t end.

Definition childNodes (e : element) : list node :=
  match e with Element _ _ cs => cs end.

(** [element.textContent]: the text of all text-node descendants, in
    tree order. *)
Fixpoint textContent (e : element) : jsstring :=
  match e with
  | Element _ _ cs =>
      (fix children_text (ns : list node) : jsstring :=
         match ns with
         | [] => []
         | TextNode d :: ns' => d ++ children_text ns'
         | ElementNode e' :: ns' => textContent e' ++ children_text ns'
         | CommentNode _ :: ns' => children_text ns'
         end) cs
  end.

(** [element.textContent = s]: the children are replaced by one text
    node, or by nothing when [s] is empty. *)
Definition setTextContent (e : element) (s : jsstring) : element :=
  match e with
  | Element t a _ => Element t a (if truthy s then [TextNode s] else [])
  end.

Fixpoint streq (a b : jsstring) : bool :=
  match a, b with
  | [], [] => true
  | x :: a', y :: b' => (N.eqb x y && streq a' b')%bool
  | _, _ => false
  end.

Definition is_element (n : node) : bool :=
  match n with ElementNode _ => true | _ => false end.

(** Lines 14-26. *)
Definition isLeafElement (e : element) : bool :=
  Nat.eqb (length (filter is_element (childNodes e))) 0.

Definition isLineBreak (e : element) : bool := streq (tagName e) (str "BR").

Definition isThematicBreak (e : element) : bool :=
  streq (tagName e) (str "HR").

(** What [window.getComputedStyle] reports and [isVisible] reads. *)
Record style : Type := {
  display : jsstring;
  visibility : jsstring;
  opacity : jsstring
}.

(** ** Content blocks

    The result array holds [p] elements made from sentences and clones
    of elements of the document. *)
Inductive block : Type :=
| TextBlock (text : jsstring)
| PreservedElement (clone : element).

(** The DOM element that a block stands for in the result array. *)
Definition block_element (b : block) : element :=
  match b with
  | TextBlock s => setTextContent (Element (str "P") [] []) s
  | PreservedElement e => e
  end.

Record state : Type := {
  buffer : jsstring;
  results : list block
}.

(** The body shared by the loops of lines 67-73 and 84-90. *)
Definition pushSentence (acc : list block) (sentence : jsstring)
  : list block :=
  if truthy (trim sentence) then acc ++ [TextBlock (trim sentence)] else acc.

(** Lines 61-75. *)
Definition processBufferToResults (textBuffer : jsstring)
    (results : list block) : list block :=
  let containerResults := results in
  if negb (truthy (trim textBuffer)) then containerResults
  else fold_left pushSentence (splitBySentences textBuffer) containerResults.

(** Lines 77-95. *)
Definition processLineForSentences (line buffer : jsstring)
    (results : list block) : state :=
  let updatedBuffer := buffer ++ line in
  let sentences := splitBySentences updatedBuffer in
  if Nat.ltb 1 (length sentences) then
    {| buffer := nth (length sentences - 1) sentences [];
       results :=
         fold_left pushSentence (firstn (length sentences - 1) sentences)
           results |}
  else {| buffer := updatedBuffer; results := results |}.

(** Lines 97-107. *)
Definition flushLineBuffer (buffer : jsstring) (results : list block)
  : state :=
  {| buffer := [];
     results :=
       if truthy (trim buffer) then results ++ [TextBlock (trim buffer)]
       else results |}.

Definition splitTextIntoLines (text : jsstring) : list jsstring :=
  split_lines_aux text [].

(** Lines 122-129: one line goes through the splitter when it has
    terminal punctuation and is appended to the buffer otherwise. *)
Definition accumulateLine (line : jsstring) (st : state) : state :=
  if test_punct line
  then processLineForSentences line (buffer st) (results st)
  else {| buffer := buffer st ++ line; results := results st |}.

(** The loop of lines 119-136 over the lines that are left; the line at
    hand is the last one when nothing follows it. *)
Fixpoint processLines (lines : list jsstring) (st : state) : state :=
  match lines with
  | [] => st
  | line :: rest =>
      let st1 := accumulateLine line st in
      let st2 :=
        match rest with
        | [] => st1
        | _ :: _ => flushLineBuffer (buffer st1) (results st1)
        end in
      processLines rest st2
  end.

(** Lines 113-138. *)
Definition processTextNode (text textBuffer : jsstring)
    (containerResults : list block) : state :=
  processLines (splitTextIntoLines text)
    {| buffer := textBuffer; results := containerResults |}.

(** Lines 140-155; [siblings] are the nodes after the element. *)
Fixpoint getFollowingText (siblings : list node) : jsstring :=
  match siblings with
  | [] => []
  | TextNode d :: _ => d
  | ElementNode _ :: _ => []
  | CommentNode _ :: siblings' => getFollowingText siblings'
  end.

(** Lines 157-164. *)
Definition hasElementSurroundingText (precedingText followingText : jsstring)
  : bool :=
  let followingStartsWithPunctuation :=
    starts_nonword_nonspace (trimStart followingText) in
  (Nat.ltb 0 (length precedingText)
   || (Nat.ltb 0 (length (trim followingText))
       && negb (starts_punct_space (trimStart followingText))
       && followingStartsWithPunctuation))%bool.

(** [s.trim().replace(/\n/g, ' ').replace(/\s+/g, ' ')] *)
Definition normalizeText (s : jsstring) : jsstring :=
  collapse_spaces (replace_newlines (trim s)).

(** Lines 166-187. *)
Definition processLeafElement (child : element) (nextSiblings : list node)
    (textBuffer : jsstring) (containerResults : list block) : state :=
  let elementTextContent := trim (textContent child) in
  let precedingText := trim textBuffer in
  let followingText := getFollowingText nextSiblings in
  let followingStartsWithPunctuation :=
    starts_nonword_nonspace (trimStart followingText) in
  let hasSurroundingText :=
    hasElementSurroundingText precedingText followingText in
  if (hasSurroundingText || followingStartsWithPunctuation)%bool then
    {| buffer := textBuffer ++ elementTextContent;
       results := containerResults |}
  else
    let updatedResults := processBufferToResults textBuffer containerResults in
    let clonedElement := setTextContent child (normalizeText (textContent child)) in
    {| buffer := []; results := updatedResults ++ [PreservedElement clonedElement] |}.

(** Lines 189-193. *)
Definition processLineBreak (_child : element) (textBuffer : jsstring)
    (containerResults : list block) : state :=
  let updatedResults := processBufferToResults textBuffer containerResults in
  {| buffer := []; results := updatedResults |}.

(** The clone that [processThematicBreak] pushes (lines 198-202). *)
Definition thematicBreakClone (child : element) : element :=
  if truthy (textContent child)
  then setTextContent child (normalizeText (textContent child))
  else child.

(** Lines 195-205. *)
Definition processThematicBreak (child : element) (textBuffer : jsstring)
    (containerResults : list block) : state :=
  let updatedResults := processBufferToResults textBuffer containerResults in
  {| buffer := [];
     results := updatedResults ++ [PreservedElement (thematicBreakClone child)] |}.

(** ** The traversal

    [window.getComputedStyle] is the host's capability; the traversal is
    a function of it and of the tree.  An element of the tree stands for
    itself, tag, attributes and children, so the style is a function of
    those. *)

Section Traversal.

Variable getComputedStyle : element -> style.

(** Lines 6-11. *)
Definition isVisible (e : element) : bool :=
  let style := getComputedStyle e in
  (negb (streq (display style) (str "none"))
   && negb (streq (visibility style) (str "hidden"))
   && negb (streq (opacity style) (str "0")))%bool.

Section Processors.

(** The recursive call of line 210. *)
Variable processContainer : element -> list block.

(** Lines 207-213. *)
Definition processNonLeafElement (child : element) (textBuffer : jsstring)
    (containerResults : list block) : state :=
  let updatedResults := processBufferToResults textBuffer containerResults in
  let nestedResults := processContainer child in
  {| buffer := []; results := updatedResults ++ nestedResults |}.

(** Lines 215-221.  A processor also receives the siblings after the
    child, which the source reaches through [nextSibling]. *)
Definition getElementProcessor (child : element)
  : element -> list node -> jsstring -> list block -> state :=
  if isLineBreak child then fun c _ => processLineBreak c
  else if isThematicBreak child then fun c _ => processThematicBreak c
  else if isLeafElement child then processLeafElement
  else fun c _ => processNonLeafElement c.

(** The body of the loop of lines 227-239 for one child. *)
Definition processChild (child : node) (nextSiblings : list node)
    (st : state) : state :=
  match child with
  | TextNode data => processTextNode data (buffer st) (results st)
  | ElementNode e =>
      if isVisible e then
        let processor := getElementProcessor e in
        processor e nextSiblings (buffer st) (results st)
      else st
  | CommentNode _ => st
  end.

End Processors.

(** Lines 223-243. *)
Fixpoint processContainer (container : element) : list block :=
  match container with
  | Element _ _ children =>
      (fix loop (children : list node) (st : state) : list block :=
         match children with
         | [] => processBufferToResults (buffer st) (results st)
         | child :: rest =>
             loop rest (processChild processContainer child rest st)
         end) children {| buffer := []; results := [] |}
  end.

End Traversal.


(** * Vocabulary of the specification *)

Fixpoint takeWhile (p : codeunit -> bool) (s : jsstring) : jsstring :=
  match s with
  | [] => []
  | c :: s' => if p c then c :: takeWhile p s' else []
  end.

(** What comes after a run of punctuation completes the sentence. *)
Definition completes (rest : jsstring) : bool :=
  match rest with
  | [] => true
  | d :: _ => is_space d
  end.

Definition no_punct_ahead (rest : jsstring) : Prop :=
  match rest with
  | [] => True
  | d :: _ => is_punct d = false
  end.


(** The last code unit of [s] is white space. *)
Definition ends_in_space (s : jsstring) : bool :=
  match rev s with
  | c :: _ => is_space c
  | [] => false
  end.

Definition has_newline (s : jsstring) : bool := existsb (N.eqb NL) s.

(** The sentences that reach the result array: trimmed, blank ones
    dropped. *)
Definition textBlocks (sentences : list jsstring) : list block :=
  map TextBlock (filter truthy (map trim sentences)).

Definition is_preserved (b : block) : bool :=
  match b with PreservedElement _ => true | TextBlock _ => false end.

Definition initial : state := {| buffer := []; results := [] |}.

(** Flushing the buffer into the results, as at the end of a container. *)
Definition finish (st : state) : list block :=
  processBufferToResults (buffer st) (results st).

(** The loop of [processContainer] as a function of its own: the state
    after the children [children], from the state [st]. *)
Fixpoint traverse (getComputedStyle : element -> style)
    (children : list node) (st : state) : state :=
  match children with
  | [] => st
  | child :: rest =>
      traverse getComputedStyle rest
        (processChild getComputedStyle (processContainer getComputedStyle)
           child rest st)
  end.

(** [e] is an element inside [c], at any depth. *)
Inductive inside : element -> element -> Prop :=
| inside_child e t a cs :
    In (ElementNode e) cs -> inside e (Element t a cs)
| inside_deeper e e' t a cs :
    In (ElementNode e') cs -> inside e e' -> inside e (Element t a cs).

(** A style sheet for the examples: an element with the [hidden]
    attribute is not displayed. *)
Definition hiddenStyle (e : element) : style :=
  match e with
  | Element _ attrs _ =>
      {| display :=
           if existsb (fun kv => streq (fst kv) (str "hidden")) attrs
           then str "none" else str "inline";
         visibility := str "visible";
         opacity := str "1" |}
  end.

Definition div (children : list node) : element :=
  Element (str "DIV") [] children.

(** A state with [res] put before its results. *)
Definition prepend (res : list block) (st : state) : state :=
  {| buffer := buffer st; results := res ++ results st |}.

(** The decision of the specification (section 4.3), in the
    specification's words: the trimmed preceding buffer is non-empty; or
    the trimmed following text is non-empty, does not begin with one
    terminal punctuation mark followed by white space and, leading white
    space stripped, begins with a non-word non-space character; or the
    following text, leading white space stripped, begins with a non-word
    non-space character. *)
Definition embeddedBySpec (precedingBuffer followingText : jsstring) : bool :=
  (truthy (trim precedingBuffer)
   || (truthy (trim followingText)
       && negb (starts_punct_space (trim followingText))
       && starts_nonword_nonspace (trimStart followingText))
   || starts_nonword_nonspace (trimStart followingText))%bool.

(** The two outcomes for a leaf element. *)
Definition merged (child : element) (st : state) : state :=
  {| buffer := buffer st ++ trim (textContent child); results := results st |}.

Definition standalone (child : element) (st : state) : state :=
  {| buffer := [];
     results :=
       finish st ++
       [PreservedElement
          (setTextContent child (normalizeText (textContent child)))] |}.

(** Nodes of the examples. *)
Definition link : element := Element (str "A") [] [TextNode (str "link")].

Definition hiddenSpan : element :=
  Element (str "SPAN") [(str "hidden", [])] [TextNode (str "secret.")].

Definition hr : element := Element (str "HR") [] [].

(** Another style sheet, which hides the same elements by opacity. *)
Definition fadedStyle (e : element) : style :=
  match e with
  | Element _ attrs _ =>
      {| display := str "block";
         visibility := str "visible";
         opacity :=
           if existsb (fun kv => streq (fst kv) (str "hidden")) attrs
           then str "0" else str "1" |}
  end.

(** [P] holds of a node that is an element. *)
Definition holds_of_element (P : element -> Prop) (n : node) : Prop :=
  match n with
  | ElementNode e => P e
  | TextNode _ | CommentNode _ => True
  end.


Definition section_ (children : list node) : element :=
  Element (str "SECTION") [] children.

Definition br : element := Element (str "BR") [] [].

(** * Vocabulary of the further properties *)

(** The last code unit of [s] is terminal punctuation. *)
Definition ends_in_punct (s : jsstring) : bool := is_punct (last s SP).

(** The first code unit of [s] is white space. *)
Definition starts_with_space (s : jsstring) : bool :=
  match s with
  | c :: _ => is_space c
  | [] => false
  end.

Definition not_blank (s : jsstring) : Prop := truthy (trim s) = true.

(** The code units of [s] that are not white space, in order. *)
Definition visibleChars (s : jsstring) : jsstring :=
  filter (fun c => negb (is_space c)) s.

(** Every white-space code unit of [s] is a space, and no two are
    adjacent. *)
Fixpoint single_spaced (s : jsstring) : bool :=
  match s with
  | [] => true
  | c :: s' =>
      ((if is_space c then N.eqb c SP && negb (starts_with_space s')
        else true)
       && single_spaced s')%bool
  end.

(** No white space at either end. *)
Definition trimmed (s : jsstring) : Prop :=
  starts_with_space s = false /\ ends_in_space s = false.

(** A text block holds a text that is not empty and has no white space
    at either end. *)
Definition well_formed_block (b : block) : Prop :=
  match b with
  | TextBlock s => s <> [] /\ trim s = s
  | PreservedElement _ => True
  end.

(** [e'] is what the traversal pushes for the element [e]: the element
    as it is, or the element with its children replaced by its
    normalized text. *)
Definition normalized_clone (e' e : element) : Prop :=
  e' = e \/ e' = setTextContent e (normalizeText (textContent e)).

(** A preserved element comes from a visible element inside [c] that is
    a thematic break or a leaf, and not a line break. *)
Definition comes_from (getComputedStyle : element -> style) (c : element)
    (b : block) : Prop :=
  match b with
  | TextBlock _ => True
  | PreservedElement e' =>
      exists e,
        inside e c /\
        isVisible getComputedStyle e = true /\
        isLineBreak e = false /\
        (isThematicBreak e = true \/ isLeafElement e = true) /\
        normalized_clone e' e
  end.

(** The text of a block: the sentence, or the text of the clone. *)
Definition blockText (b : block) : jsstring :=
  match b with
  | TextBlock s => s
  | PreservedElement e => textContent e
  end.

(** The text that the traversal of a container reads, in document
    order: text nodes, the text of visible thematic breaks and leaves,
    and what it reads in visible nested containers; nothing of
    comments, invisible elements and line breaks. *)
Fixpoint shownText (getComputedStyle : element -> style) (e : element)
  : jsstring :=
  match e with
  | Element _ _ cs =>
      (fix nodes (ns : list node) : jsstring :=
         match ns with
         | [] => []
         | n :: ns' =>
             match n with
             | TextNode d => d
             | CommentNode _ => []
             | ElementNode e' =>
                 if isVisible getComputedStyle e' then
                   if isLineBreak e' then []
                   else if isThematicBreak e' then textContent e'
                   else if isLeafElement e' then textContent e'
                   else shownText getComputedStyle e'
                 else []
             end ++ nodes ns'
         end) cs
  end.

Definition shownNode (getComputedStyle : element -> style) (n : node)
  : jsstring :=
  match n with
  | TextNode d => d
  | CommentNode _ => []
  | ElementNode e' =>
      if isVisible getComputedStyle e' then
        if isLineBreak e' then []
        else if isThematicBreak e' then textContent e'
        else if isLeafElement e' then textContent e'
        else shownText getComputedStyle e'
      else []
  end.

(** The code units other than white space of a list of blocks, and of a
    state of the traversal (results first, then the buffer). *)
Definition blocksChars (bs : list block) : jsstring :=
  visibleChars (concat (map blockText bs)).

Definition stateChars (st : state) : jsstring :=
  blocksChars (results st) ++ visibleChars (buffer st).

(** [playTextualContent], line 356: of the elements it is given, the
    ones that are displayed, in the order of the loop of lines
    360-363. *)
Definition textElements (elements : list element) : list element :=
  filter
    (fun el =>
       (truthy (textContent el)
        && Nat.ltb 0 (length (trim (textContent el))))%bool)
    elements.

(** [extractVisibleTextualContent], lines 246-248, as the array of
    elements it returns; [body] stands for [document.body]. *)
Definition extractVisibleTextualContent (getComputedStyle : element -> style)
    (body : element) : list element :=
  map block_element (processContainer getComputedStyle body).

(** A block whose text is not blank. *)
Definition has_text (b : block) : bool := truthy (trim (blockText b)).
(** * Properties *)

(** ** White space and trimming *)

Lemma takeWhile_dropWhile (p : codeunit -> bool) (s : jsstring) :
  takeWhile p s ++ dropWhile p s = s.
Proof.
  induction s as [|c s IH]; simpl; [reflexivity|].
  destruct (p c); simpl; [now rewrite IH | reflexivity].
Qed.

Lemma dropWhile_nil_iff (p : codeunit -> bool) (s : jsstring) :
  dropWhile p s = [] <-> forallb p s = true.
Proof.
  induction s as [|c s IH]; simpl.
  - tauto.
  - destruct (p c) eqn:E; simpl; [exact IH|].
    split; [discriminate | discriminate].
Qed.

Lemma dropWhile_head (p : codeunit -> bool) (s : jsstring) c t :
  dropWhile p s = c :: t -> p c = false.
Proof.
  induction s as [|x s IH]; simpl; [discriminate|].
  destruct (p x) eqn:E; [exact IH|].
  intros H; injection H as -> _; exact E.
Qed.

Lemma dropWhile_app_stop (p : codeunit -> bool) (run rest : jsstring) :
  forallb p run = true ->
  match rest with [] => True | d :: _ => p d = false end ->
  takeWhile p (run ++ rest) = run /\ dropWhile p (run ++ rest) = rest.
Proof.
  intros Hrun Hrest.
  induction run as [|c run IH]; simpl in *.
  - destruct rest as [|d rest]; simpl; [tauto|]. now rewrite Hrest.
  - apply andb_true_iff in Hrun as [Hc Hrun]. rewrite Hc.
    destruct (IH Hrun) as [-> ->]. tauto.
Qed.

Lemma forallb_rev (p : codeunit -> bool) (s : jsstring) :
  forallb p (rev s) = forallb p s.
Proof.
  induction s as [|c s IH]; simpl; [reflexivity|].
  rewrite forallb_app, IH. simpl. rewrite andb_true_r. apply andb_comm.
Qed.

(** [s.trim()] is empty exactly when [s] is white space only. *)
Lemma trim_blank_iff (s : jsstring) :
  truthy (trim s) = false <-> forallb is_space s = true.
Proof.
  unfold trim, trimEnd, trimStart.
  destruct (dropWhile is_space s) as [|c t] eqn:E.
  - simpl. rewrite <- dropWhile_nil_iff, E. tauto.
  - assert (Hc : is_space c = false) by (eapply dropWhile_head; eauto).
    assert (Hs : forallb is_space s = false).
    { destruct (forallb is_space s) eqn:F; [|reflexivity].
      apply dropWhile_nil_iff in F. congruence. }
    rewrite Hs.
    destruct (rev (dropWhile is_space (rev (c :: t)))) as [|x y] eqn:R.
    + exfalso. apply (f_equal (@rev _)) in R. rewrite rev_involutive in R.
      simpl in R. apply dropWhile_nil_iff in R.
      rewrite forallb_app in R. simpl in R.
      rewrite Hc in R. rewrite andb_false_r in R. discriminate.
    + simpl. split; discriminate.
Qed.

Lemma trim_nil : trim [] = [].
Proof. reflexivity. Qed.

(** ** The sentence splitter *)

(** The loop at a punctuation mark, with the inner loop run to its end. *)
Lemma splitLoop_punct (c : codeunit) (rest current : jsstring)
    (sentences : list jsstring) :
  is_punct c = true ->
  splitLoop (c :: rest) current sentences =
  let sentence := current ++ c :: takeWhile is_punct rest in
  let rest' := dropWhile is_punct rest in
  if completes rest' then splitLoop rest' [] (sentences ++ [sentence])
  else splitLoop rest' sentence sentences.
Proof.
  intros Hc. cbn [splitLoop]. rewrite Hc.
  replace (current ++ c :: takeWhile is_punct rest)
    with ((current ++ [c]) ++ takeWhile is_punct rest)
    by (now rewrite <- app_assoc).
  generalize (current ++ [c]) as cur. clear Hc.
  induction rest as [|d rest IH]; intros cur.
  - cbn. now rewrite app_nil_r.
  - cbn [takeWhile dropWhile]. destruct (is_punct d) eqn:Hd.
    + rewrite IH. now rewrite <- app_assoc.
    + rewrite app_nil_r. cbn [completes]. reflexivity.
Qed.

Lemma splitLoop_plain (c : codeunit) (rest current : jsstring)
    (sentences : list jsstring) :
  is_punct c = false ->
  splitLoop (c :: rest) current sentences =
  splitLoop rest (current ++ [c]) sentences.
Proof. intros Hc. cbn [splitLoop]. now rewrite Hc. Qed.

Lemma splitLoop_nil (current : jsstring) (sentences : list jsstring) :
  splitLoop [] current sentences =
  if truthy (trim current) then sentences ++ [current] else sentences.
Proof. reflexivity. Qed.

Lemma dropWhile_length (p : codeunit -> bool) (s : jsstring) :
  length (dropWhile p s) <= length s.
Proof.
  induction s as [|c s IH]; simpl; [lia|]. destruct (p c); simpl; lia.
Qed.

(** Induction on the text that follows the loop's three cases. *)
Lemma splitLoop_ind (P : jsstring -> Prop) :
  P [] ->
  (forall c rest, is_punct c = false -> P rest -> P (c :: rest)) ->
  (forall c rest, is_punct c = true ->
     P (dropWhile is_punct rest) -> P (c :: rest)) ->
  forall text, P text.
Proof.
  intros Hnil Hplain Hpunct text.
  assert (H : forall n text, length text <= n -> P text).
  { induction n as [|n IH]; intros [|c rest] Hlen; simpl in Hlen;
      try exact Hnil; try lia.
    destruct (is_punct c) eqn:Hc.
    - apply Hpunct; [exact Hc|]. apply IH.
      pose proof (dropWhile_length is_punct rest). lia.
    - apply Hplain; [exact Hc|]. apply IH. lia. }
  apply (H (length text)). lia.
Qed.

(** The sentences pushed so far are never touched again. *)
Lemma splitLoop_sentences (text current : jsstring)
    (sentences : list jsstring) :
  splitLoop text current sentences = sentences ++ splitLoop text current [].
Proof.
  revert current sentences.
  induction text as [| c rest Hc IH | c rest Hc IH] using splitLoop_ind;
    intros current sentences.
  - rewrite !splitLoop_nil. destruct (truthy (trim current));
      [reflexivity | now rewrite app_nil_r].
  - rewrite !splitLoop_plain by exact Hc. apply IH.
  - rewrite !splitLoop_punct by exact Hc. cbv zeta.
    destruct (completes (dropWhile is_punct rest)).
    + rewrite IH. rewrite (IH [] ([] ++ _)). now rewrite <- app_assoc.
    + apply IH.
Qed.

(** Everything that has been read is in a pushed sentence, in the
    accumulator, or is a blank accumulator dropped at the end. *)
Lemma splitLoop_concat (text current : jsstring) (sentences : list jsstring) :
  exists w, forallb is_space w = true /\
    concat (splitLoop text current sentences) ++ w =
    concat sentences ++ current ++ text.
Proof.
  revert current sentences.
  induction text as [| c rest Hc IH | c rest Hc IH] using splitLoop_ind;
    intros current sentences.
  - rewrite splitLoop_nil. destruct (truthy (trim current)) eqn:E.
    + exists []. split; [reflexivity|].
      rewrite concat_app. simpl. now rewrite !app_nil_r.
    + exists current. split; [now apply trim_blank_iff|].
      now rewrite app_nil_r.
  - rewrite splitLoop_plain by exact Hc.
    destruct (IH (current ++ [c]) sentences) as (w & Hw & E).
    exists w. split; [exact Hw|]. rewrite E. now rewrite <- app_assoc.
  - rewrite splitLoop_punct by exact Hc. cbv zeta.
    pose proof (takeWhile_dropWhile is_punct rest) as Hsplit.
    set (run := takeWhile is_punct rest) in *.
    set (rest' := dropWhile is_punct rest) in *.
    rewrite <- Hsplit.
    destruct (completes rest').
    + destruct (IH [] (sentences ++ [current ++ c :: run]))
        as (w & Hw & E).
      exists w. split; [exact Hw|]. rewrite E.
      rewrite concat_app. simpl. rewrite app_nil_r.
      rewrite <- !app_assoc. reflexivity.
    + destruct (IH (current ++ c :: run) sentences) as (w & Hw & E).
      exists w. split; [exact Hw|]. rewrite E.
      rewrite <- !app_assoc. reflexivity.
Qed.

Lemma ends_in_space_app (s w : jsstring) :
  w <> [] -> forallb is_space w = true -> ends_in_space (s ++ w) = true.
Proof.
  intros Hne Hw. unfold ends_in_space. rewrite rev_app_distr.
  destruct (rev w) as [|c t] eqn:E.
  - apply (f_equal (@rev _)) in E. rewrite rev_involutive in E. now subst.
  - simpl. rewrite <- forallb_rev, E in Hw. simpl in Hw.
    now apply andb_true_iff in Hw.
Qed.



(** A run of punctuation after text without punctuation is one boundary. *)
Lemma splitLoop_run (pre run rest current : jsstring)
    (sentences : list jsstring) :
  forallb (fun c => negb (is_punct c)) pre = true ->
  run <> [] -> forallb is_punct run = true -> no_punct_ahead rest ->
  splitLoop (pre ++ run ++ rest) current sentences =
  if completes rest
  then splitLoop rest [] (sentences ++ [current ++ pre ++ run])
  else splitLoop rest (current ++ pre ++ run) sentences.
Proof.
  intros Hpre Hne Hrun Hrest. revert current.
  induction pre as [|c pre IH]; intros current.
  - destruct run as [|c run]; [contradiction|]. simpl in Hrun.
    apply andb_true_iff in Hrun as [Hc Hrun]. cbn [app].
    rewrite splitLoop_punct by exact Hc. cbv zeta.
    destruct (dropWhile_app_stop is_punct run rest Hrun Hrest) as [-> ->].
    reflexivity.
  - simpl in Hpre. apply andb_true_iff in Hpre as [Hc Hpre].
    apply negb_true_iff in Hc. cbn [app].
    rewrite splitLoop_plain by exact Hc. rewrite (IH Hpre).
    rewrite <- !app_assoc. reflexivity.
Qed.

(** C5: the splitter returns the three fragments of the specification's
    example; and, anywhere in the scan, text without punctuation
    followed by a non-empty run of terminal punctuation that ends before
    [rest] becomes one sentence (a single push for the whole run) when
    [rest] is empty or starts with white space, and otherwise stays in
    the accumulator, the scan going on with [rest] in both cases. *)
Theorem splitBySentences_example_and_runs :
  splitBySentences (str "Hello world. This is great! Done") =
    [str "Hello world."; str " This is great!"; str " Done"] /\
  forall pre run rest current sentences,
    forallb (fun c => negb (is_punct c)) pre = true ->
    run <> [] -> forallb is_punct run = true -> no_punct_ahead rest ->
    splitLoop (pre ++ run ++ rest) current sentences =
    if completes rest
    then sentences ++ (current ++ pre ++ run) :: splitLoop rest [] []
    else splitLoop rest (current ++ pre ++ run) sentences.
Proof.
  split; [vm_compute; reflexivity|].
  intros pre run rest current sentences Hpre Hne Hrun Hrest.
  rewrite splitLoop_run by assumption.
  destruct (completes rest); [|reflexivity].
  rewrite splitLoop_sentences, <- app_assoc. reflexivity.
Qed.

(** The run [?!] before white space ends one sentence, and [...] before
    a letter ends none. *)
Lemma splitBySentences_example_and_runs_witness :
  splitBySentences (str "What?! Yes") = [str "What?!"; str " Yes"] /\
  splitBySentences (str "a...b") = [str "a...b"].
Proof.
  destruct splitBySentences_example_and_runs as [_ H]. split.
  - change (splitBySentences (str "What?! Yes"))
      with (splitLoop (str "What" ++ str "?!" ++ str " Yes") [] []).
    rewrite H; [vm_compute; reflexivity | reflexivity | discriminate
               | reflexivity | reflexivity].
  - change (splitBySentences (str "a...b"))
      with (splitLoop (str "a" ++ str "..." ++ str "b") [] []).
    rewrite H; [vm_compute; reflexivity | reflexivity | discriminate
               | reflexivity | reflexivity].
Defined.

Lemma punct_not_space (c : codeunit) : is_punct c = true -> is_space c = false.
Proof.
  unfold is_punct. rewrite !orb_true_iff, !N.eqb_eq.
  intros [[[-> | ->] | ->] | ->]; reflexivity.
Qed.

Lemma blank_no_punct (s : jsstring) :
  forallb is_space s = true -> test_punct s = false.
Proof.
  unfold test_punct. induction s as [|c s IH]; simpl; [reflexivity|].
  intros H. apply andb_true_iff in H as [Hc Hs]. rewrite (IH Hs).
  destruct (is_punct c) eqn:E; [|reflexivity].
  apply punct_not_space in E. congruence.
Qed.

Lemma test_punct_app (a b : jsstring) :
  test_punct (a ++ b) = (test_punct a || test_punct b)%bool.
Proof. apply existsb_app. Qed.

(** A text with terminal punctuation gives at least one fragment. *)
Lemma splitBySentences_punct_nonempty (s : jsstring) :
  test_punct s = true -> splitBySentences s <> [].
Proof.
  intros Hp Hnil. destruct (splitLoop_concat s [] []) as (w & Hw & E).
  fold (splitBySentences s) in E. rewrite Hnil in E. simpl in E. subst w.
  apply blank_no_punct in Hw. congruence.
Qed.

(** White space alone gives no fragment. *)
Lemma splitLoop_blank (s current : jsstring) :
  forallb is_space s = true -> forallb is_space current = true ->
  splitLoop s current [] = [].
Proof.
  revert current. induction s as [|c s IH]; intros current Hs Hc.
  - rewrite splitLoop_nil. apply trim_blank_iff in Hc. now rewrite Hc.
  - simpl in Hs. apply andb_true_iff in Hs as [Hsp Hs].
    rewrite splitLoop_plain.
    + apply IH; [exact Hs|]. rewrite forallb_app, Hc. simpl. now rewrite Hsp.
    + destruct (is_punct c) eqn:E; [|reflexivity].
      apply punct_not_space in E. congruence.
Qed.

(** ** Flushing *)

Lemma pushSentences_textBlocks (sentences : list jsstring)
    (results : list block) :
  fold_left pushSentence sentences results = results ++ textBlocks sentences.
Proof.
  unfold textBlocks. revert results.
  induction sentences as [|s ss IH]; intros results; simpl.
  - now rewrite app_nil_r.
  - rewrite IH. unfold pushSentence. destruct (truthy (trim s)); simpl.
    + now rewrite <- app_assoc.
    + reflexivity.
Qed.

(** [processBufferToResults] appends the trimmed, non-blank fragments of
    the buffer, one block each. *)
Lemma processBufferToResults_textBlocks (textBuffer : jsstring)
    (results : list block) :
  processBufferToResults textBuffer results =
  results ++ textBlocks (splitBySentences textBuffer).
Proof.
  unfold processBufferToResults. cbv zeta.
  destruct (truthy (trim textBuffer)) eqn:E; simpl.
  - apply pushSentences_textBlocks.
  - apply trim_blank_iff in E. unfold splitBySentences.
    rewrite splitLoop_blank by (exact E || reflexivity).
    now rewrite app_nil_r.
Qed.

Lemma finish_textBlocks (st : state) :
  finish st = results st ++ textBlocks (splitBySentences (buffer st)).
Proof. apply processBufferToResults_textBlocks. Qed.

Lemma textBlocks_not_preserved (sentences : list jsstring) :
  existsb is_preserved (textBlocks sentences) = false.
Proof.
  unfold textBlocks.
  induction (filter truthy (map trim sentences)) as [|s l IH];
    [reflexivity | exact IH].
Qed.

Lemma map_TextBlock_not_preserved (texts : list jsstring) :
  existsb is_preserved (map TextBlock texts) = false.
Proof. induction texts as [|s l IH]; [reflexivity | exact IH]. Qed.

(** ** Lines of a text node *)

Lemma split_lines_aux_line (line acc : jsstring) :
  has_newline line = false -> split_lines_aux line acc = [acc ++ line].
Proof.
  unfold has_newline. revert acc.
  induction line as [|c line IH]; intros acc H.
  - simpl. now rewrite app_nil_r.
  - cbn [existsb] in H. apply orb_false_iff in H as [Hc Hl].
    rewrite N.eqb_sym in Hc. cbn [split_lines_aux app]. rewrite Hc.
    rewrite IH by exact Hl. now rewrite <- app_assoc.
Qed.

Lemma split_lines_aux_newline (line text acc : jsstring) :
  has_newline line = false ->
  split_lines_aux (line ++ NL :: text) acc =
  (acc ++ line) :: split_lines_aux text [].
Proof.
  unfold has_newline. revert acc.
  induction line as [|c line IH]; intros acc H.
  - cbn [app split_lines_aux]. rewrite N.eqb_refl. now rewrite app_nil_r.
  - cbn [existsb] in H. apply orb_false_iff in H as [Hc Hl].
    rewrite N.eqb_sym in Hc. cbn [split_lines_aux app]. rewrite Hc.
    rewrite IH by exact Hl. now rewrite <- app_assoc.
Qed.

Lemma split_lines_aux_nonempty (text acc : jsstring) :
  split_lines_aux text acc <> [].
Proof.
  revert acc. induction text as [|c text IH]; intros acc; simpl.
  - discriminate.
  - destruct (N.eqb c NL); [discriminate | apply IH].
Qed.

(** The handlers of a text node only append text blocks. *)
Lemma processLineForSentences_results (line buf : jsstring)
    (res : list block) :
  exists texts,
    results (processLineForSentences line buf res) = res ++ map TextBlock texts.
Proof.
  unfold processLineForSentences. cbv zeta.
  destruct (Nat.ltb 1 _); simpl.
  - rewrite pushSentences_textBlocks. unfold textBlocks. eauto.
  - exists []. now rewrite app_nil_r.
Qed.

Lemma accumulateLine_results (line : jsstring) (st : state) :
  exists texts,
    results (accumulateLine line st) = results st ++ map TextBlock texts.
Proof.
  unfold accumulateLine. destruct (test_punct line).
  - apply processLineForSentences_results.
  - exists []. simpl. now rewrite app_nil_r.
Qed.

Lemma flushLineBuffer_results (buf : jsstring) (res : list block) :
  exists texts,
    results (flushLineBuffer buf res) = res ++ map TextBlock texts.
Proof.
  unfold flushLineBuffer. simpl. destruct (truthy (trim buf)).
  - exists [trim buf]. reflexivity.
  - exists []. now rewrite app_nil_r.
Qed.

Lemma processLines_results (lines : list jsstring) (st : state) :
  exists texts,
    results (processLines lines st) = results st ++ map TextBlock texts.
Proof.
  revert st. induction lines as [|line rest IH]; intros st.
  - exists []. simpl. now rewrite app_nil_r.
  - cbn [processLines]. cbv zeta.
    destruct (accumulateLine_results line st) as (t1 & E1).
    destruct rest as [|line' rest].
    + simpl. eauto.
    + destruct (flushLineBuffer_results (buffer (accumulateLine line st))
                  (results (accumulateLine line st))) as (t2 & E2).
      destruct (IH (flushLineBuffer (buffer (accumulateLine line st))
                      (results (accumulateLine line st)))) as (t3 & E3).
      exists (t1 ++ t2 ++ t3). rewrite E3, E2, E1.
      rewrite !map_app, <- !app_assoc. reflexivity.
Qed.

Lemma last_index (A : Type) (l : list A) (a d : A) :
  nth (length (l ++ [a]) - 1) (l ++ [a]) d = a /\
  firstn (length (l ++ [a]) - 1) (l ++ [a]) = l.
Proof.
  rewrite length_app. simpl.
  replace (length l + 1 - 1) with (length l) by lia. split.
  - rewrite app_nth2 by lia. now rewrite Nat.sub_diag.
  - rewrite firstn_app, Nat.sub_diag, firstn_all. simpl. apply app_nil_r.
Qed.

Lemma processTextNode_newline (line text buf : jsstring) (res : list block) :
  has_newline line = false ->
  processTextNode (line ++ NL :: text) buf res =
  let st := accumulateLine line {| buffer := buf; results := res |} in
  processTextNode text []
    (results st ++
     if truthy (trim (buffer st)) then [TextBlock (trim (buffer st))] else []).
Proof.
  intros Hl. unfold processTextNode, splitTextIntoLines. cbv zeta.
  rewrite split_lines_aux_newline by exact Hl. cbn [app].
  destruct (split_lines_aux text []) as [|l ls] eqn:E.
  - now apply split_lines_aux_nonempty in E.
  - cbn [processLines]. cbv zeta. f_equal. unfold flushLineBuffer. f_equal.
    destruct (truthy (trim _)); [reflexivity | now rewrite app_nil_r].
Qed.

Lemma processTextNode_last_line (line buf : jsstring) (res : list block) :
  has_newline line = false ->
  processTextNode line buf res =
  accumulateLine line {| buffer := buf; results := res |}.
Proof.
  intros Hl. unfold processTextNode, splitTextIntoLines.
  rewrite split_lines_aux_line by exact Hl. reflexivity.
Qed.

(** C3: a container whose only child is the text node "A.\nB" yields the
    two text blocks "A." and "B"; in general a line that is followed by
    a newline is accumulated and then what is left in the buffer is
    emitted whole (trimmed, if not blank) whether or not it ends in
    punctuation, the rest of the text node starting from an empty
    buffer; and after the last line the buffer is kept as the line left
    it. *)
Theorem newline_is_hard_boundary (getComputedStyle : element -> style) :
  (forall t a,
     processContainer getComputedStyle
       (Element t a [TextNode (str "A." ++ NL :: str "B")]) =
     [TextBlock (str "A."); TextBlock (str "B")]) /\
  (forall line text buf res,
     has_newline line = false ->
     processTextNode (line ++ NL :: text) buf res =
     let st := accumulateLine line {| buffer := buf; results := res |} in
     processTextNode text []
       (results st ++
        if truthy (trim (buffer st)) then [TextBlock (trim (buffer st))]
        else [])) /\
  (forall line buf res,
     has_newline line = false ->
     processTextNode line buf res =
     accumulateLine line {| buffer := buf; results := res |}).
Proof.
  split; [|split].
  - intros t a. vm_compute. reflexivity.
  - apply processTextNode_newline.
  - apply processTextNode_last_line.
Qed.

(** The line "B" has no punctuation and is still a block of its own
    when a newline follows it. *)
Lemma newline_is_hard_boundary_witness :
  results (processTextNode (str "B" ++ NL :: str "C") [] []) =
    [TextBlock (str "B")] /\
  buffer (processTextNode (str "B" ++ NL :: str "C") [] []) = str "C".
Proof.
  destruct (newline_is_hard_boundary hiddenStyle) as (_ & H & _).
  rewrite (H (str "B") (str "C") [] []) by reflexivity.
  split; vm_compute; reflexivity.
Defined.

(** C4, as the specification states it, fails: for the line "A. " and an
    empty buffer the splitter returns the single fragment "A.", and the
    new buffer is "A. ", the buffer and the line as they were. *)
Lemma buffer_is_not_last_fragment :
  test_punct (str "A. ") = true /\
  buffer (processTextNode (str "A. ") [] []) <>
  last (splitBySentences ([] ++ str "A. ")) [].
Proof. split; [reflexivity | vm_compute; discriminate]. Qed.

(** C4 (amended): for a line with terminal punctuation the handler runs
    the splitter on buffer+line, which returns at least one fragment.
    When it returns more than one, every fragment except the last is
    emitted as a text block (trimmed, dropped if blank) and the new
    buffer is exactly the last fragment.  When it returns exactly one,
    nothing is emitted and the new buffer is buffer+line as it is, which
    is that fragment followed by the white space the splitter left
    out. *)
Theorem line_with_punctuation (line buf : jsstring) (res : list block) :
  test_punct line = true ->
  let sentences := splitBySentences (buf ++ line) in
  let st := accumulateLine line {| buffer := buf; results := res |} in
  st = processLineForSentences line buf res /\
  sentences <> [] /\
  (1 < length sentences ->
   buffer st = last sentences [] /\
   results st = res ++ textBlocks (removelast sentences)) /\
  (length sentences = 1 ->
   buffer st = buf ++ line /\
   results st = res /\
   exists w, forallb is_space w = true /\
             buf ++ line = last sentences [] ++ w).
Proof.
  intros Hp sentences st.
  assert (Hst : st = processLineForSentences line buf res).
  { unfold st, accumulateLine. now rewrite Hp. }
  assert (Hne : sentences <> []).
  { apply splitBySentences_punct_nonempty.
    rewrite test_punct_app, Hp. apply orb_true_r. }
  split; [exact Hst|]. split; [exact Hne|].
  rewrite Hst. unfold processLineForSentences. cbv zeta.
  fold sentences.
  destruct (exists_last Hne) as (front & f & E).
  destruct (last_index _ front f []) as [Hnth Hfirst].
  split.
  - intros Hlen. apply Nat.ltb_lt in Hlen. rewrite Hlen. simpl.
    rewrite E, Hnth, Hfirst, last_last, removelast_last.
    split; [reflexivity | apply pushSentences_textBlocks].
  - intros Hlen. rewrite Hlen. simpl.
    split; [reflexivity|]. split; [reflexivity|].
    destruct (splitLoop_concat (buf ++ line) [] []) as (w & Hw & Ew).
    fold (splitBySentences (buf ++ line)) in Ew. fold sentences in Ew.
    exists w. split; [exact Hw|].
    rewrite E in Hlen, Ew |- *. rewrite last_last.
    rewrite length_app in Hlen. simpl in Hlen.
    destruct front; [|simpl in Hlen; lia].
    simpl in Ew. rewrite app_nil_r in Ew. now rewrite Ew.
Qed.

(** "A. B" after "x" gives the block "x A." and the buffer " B"; "A. "
    after "x" gives no block and the buffer "xA. ". *)
Lemma line_with_punctuation_witness :
  (buffer (accumulateLine (str " A. B") {| buffer := str "x"; results := [] |})
     = str " B" /\
   results (accumulateLine (str " A. B") {| buffer := str "x"; results := [] |})
     = [TextBlock (str "x A.")]) /\
  (buffer (accumulateLine (str "A. ") {| buffer := str "x"; results := [] |})
     = str "xA. " /\
   results (accumulateLine (str "A. ") {| buffer := str "x"; results := [] |})
     = []).
Proof.
  split.
  - destruct (line_with_punctuation (str " A. B") (str "x") [] eq_refl)
      as (_ & _ & H & _).
    destruct H as [Hb Hr]; [vm_compute; lia|].
    rewrite Hb, Hr. split; vm_compute; reflexivity.
  - destruct (line_with_punctuation (str "A. ") (str "x") [] eq_refl)
      as (_ & _ & _ & H).
    destruct H as (Hb & Hr & _); [vm_compute; reflexivity|].
    rewrite Hb, Hr. split; vm_compute; reflexivity.
Defined.

(** ** The traversal *)

Section TraversalFacts.

Variable getComputedStyle : element -> style.

Local Abbreviation visible := (isVisible getComputedStyle).
Local Abbreviation container := (processContainer getComputedStyle).
Local Abbreviation step := (processChild getComputedStyle container).
Local Abbreviation walk := (traverse getComputedStyle).

Lemma processContainer_traverse t a (children : list node) :
  container (Element t a children) = finish (walk children initial).
Proof.
  cbn [processContainer].
  change {| buffer := []; results := [] |} with initial. generalize initial.
  induction children as [|child rest IH]; intros st.
  - reflexivity.
  - cbn [traverse]. rewrite <- IH. reflexivity.
Qed.

(** The siblings after a child matter only through the text that
    [getFollowingText] finds. *)
Lemma processChild_following (rec : element -> list block) (child : node)
    (next next' : list node) (st : state) :
  getFollowingText next = getFollowingText next' ->
  processChild getComputedStyle rec child next st =
  processChild getComputedStyle rec child next' st.
Proof.
  intros H. destruct child as [d | e | d]; cbn [processChild];
    try reflexivity.
  destruct (visible e); [|reflexivity].
  unfold getElementProcessor.
  destruct (isLineBreak e); [reflexivity|].
  destruct (isThematicBreak e); [reflexivity|].
  destruct (isLeafElement e); [|reflexivity].
  unfold processLeafElement. now rewrite H.
Qed.

(** An element among the following siblings hides what comes after it
    from the lookahead. *)
Lemma getFollowingText_barrier (next after : list node) (e : element) :
  getFollowingText (next ++ ElementNode e :: after) = getFollowingText next.
Proof.
  induction next as [|[d | e' | d] next IH]; cbn; auto.
Qed.



(** Results are only ever appended to. *)
Lemma processLineForSentences_prepend (line buf : jsstring)
    (res : list block) :
  processLineForSentences line buf res =
  prepend res (processLineForSentences line buf []).
Proof.
  unfold processLineForSentences, prepend. cbv zeta.
  destruct (Nat.ltb 1 _); simpl.
  - rewrite pushSentences_textBlocks. symmetry.
    now rewrite pushSentences_textBlocks.
  - now rewrite app_nil_r.
Qed.

Lemma accumulateLine_prepend (line buf : jsstring) (res : list block) :
  accumulateLine line {| buffer := buf; results := res |} =
  prepend res (accumulateLine line {| buffer := buf; results := [] |}).
Proof.
  unfold accumulateLine. cbn [buffer results].
  destruct (test_punct line).
  - apply processLineForSentences_prepend.
  - unfold prepend. simpl. now rewrite app_nil_r.
Qed.

Lemma flushLineBuffer_prepend (buf : jsstring) (res res' : list block) :
  flushLineBuffer buf (res ++ res') = prepend res (flushLineBuffer buf res').
Proof.
  unfold flushLineBuffer, prepend. simpl.
  destruct (truthy (trim buf)); [now rewrite app_assoc | reflexivity].
Qed.

Lemma processLines_prepend (lines : list jsstring) (res : list block)
    (st : state) :
  processLines lines (prepend res st) = prepend res (processLines lines st).
Proof.
  revert st. induction lines as [|line rest IH]; intros [buf r];
    [reflexivity|].
  cbn [processLines]. cbv zeta.
  assert (E : accumulateLine line (prepend res {| buffer := buf; results := r |})
              = prepend res (accumulateLine line {| buffer := buf; results := r |})).
  { unfold prepend at 1. cbn [buffer results].
    rewrite accumulateLine_prepend.
    rewrite (accumulateLine_prepend line buf r).
    unfold prepend. simpl. now rewrite app_assoc. }
  rewrite E. destruct rest as [|line' rest]; [reflexivity|].
  rewrite <- IH. f_equal. unfold prepend at 1 2. cbn [buffer results].
  apply flushLineBuffer_prepend.
Qed.

Lemma processBufferToResults_prepend (buf : jsstring) (res res' : list block) :
  processBufferToResults buf (res ++ res') =
  res ++ processBufferToResults buf res'.
Proof.
  rewrite !processBufferToResults_textBlocks. now rewrite app_assoc.
Qed.

Lemma finish_prepend (res : list block) (st : state) :
  finish (prepend res st) = res ++ finish st.
Proof. apply processBufferToResults_prepend. Qed.

Lemma processChild_prepend (rec : element -> list block) (child : node)
    (next : list node) (res : list block) (st : state) :
  processChild getComputedStyle rec child next (prepend res st) =
  prepend res (processChild getComputedStyle rec child next st).
Proof.
  destruct child as [d | e | d]; cbn [processChild]; try reflexivity.
  - unfold processTextNode.
    rewrite <- processLines_prepend. reflexivity.
  - destruct (visible e); [|reflexivity].
    unfold getElementProcessor.
    destruct (isLineBreak e); [|destruct (isThematicBreak e);
                                 [|destruct (isLeafElement e)]].
    + unfold processLineBreak, prepend. cbn [buffer results]. f_equal.
      apply processBufferToResults_prepend.
    + unfold processThematicBreak, prepend. cbn [buffer results]. f_equal.
      rewrite processBufferToResults_prepend. now rewrite <- app_assoc.
    + unfold processLeafElement, prepend. cbn [buffer results].
      destruct (_ || _)%bool; cbn [buffer results]; [reflexivity|].
      f_equal. rewrite processBufferToResults_prepend.
      now rewrite <- app_assoc.
    + unfold processNonLeafElement, prepend. cbn [buffer results]. f_equal.
      rewrite processBufferToResults_prepend. now rewrite <- app_assoc.
Qed.

Lemma traverse_prepend (children : list node) (res : list block) (st : state) :
  walk children (prepend res st) = prepend res (walk children st).
Proof.
  revert st. induction children as [|c cs IH]; intros st; [reflexivity|].
  cbn [traverse]. rewrite processChild_prepend. apply IH.
Qed.

(** After a flush the rest of the children are processed as a container
    of their own. *)
Lemma traverse_from_empty t a (children : list node) (res : list block) :
  finish (walk children {| buffer := []; results := res |}) =
  res ++ container (Element t a children).
Proof.
  rewrite processContainer_traverse.
  replace {| buffer := []; results := res |} with (prepend res initial)
    by (unfold prepend, initial; simpl; now rewrite app_nil_r).
  rewrite traverse_prepend. apply finish_prepend.
Qed.

Lemma streq_eq (a b : jsstring) : streq a b = true -> a = b.
Proof.
  revert b. induction a as [|x a IH]; intros [|y b]; simpl;
    try discriminate; [reflexivity|].
  intros H. apply andb_true_iff in H as [Hx Hab].
  apply N.eqb_eq in Hx. subst y. f_equal. now apply IH.
Qed.

Lemma thematic_break_not_line_break (e : element) :
  isThematicBreak e = true -> isLineBreak e = false.
Proof.
  unfold isThematicBreak, isLineBreak. intros H.
  apply streq_eq in H. now rewrite H.
Qed.

(** What one step of the loop does, by kind of child. *)
Lemma step_invisible (rec : element -> list block) (e : element)
    (next : list node) (st : state) :
  visible e = false ->
  processChild getComputedStyle rec (ElementNode e) next st = st.
Proof. intros H. cbn [processChild]. now rewrite H. Qed.

Lemma step_line_break (rec : element -> list block) (e : element)
    (next : list node) (st : state) :
  visible e = true -> isLineBreak e = true ->
  processChild getComputedStyle rec (ElementNode e) next st =
  {| buffer := []; results := finish st |}.
Proof.
  intros Hv Hb. cbn [processChild]. rewrite Hv.
  unfold getElementProcessor. now rewrite Hb.
Qed.

Lemma step_thematic_break (rec : element -> list block) (e : element)
    (next : list node) (st : state) :
  visible e = true -> isThematicBreak e = true ->
  processChild getComputedStyle rec (ElementNode e) next st =
  {| buffer := [];
     results := finish st ++ [PreservedElement (thematicBreakClone e)] |}.
Proof.
  intros Hv Hb. cbn [processChild]. rewrite Hv.
  unfold getElementProcessor.
  now rewrite (thematic_break_not_line_break e Hb), Hb.
Qed.

Lemma step_leaf (rec : element -> list block) (e : element)
    (next : list node) (st : state) :
  visible e = true -> isLineBreak e = false -> isThematicBreak e = false ->
  isLeafElement e = true ->
  processChild getComputedStyle rec (ElementNode e) next st =
  processLeafElement e next (buffer st) (results st).
Proof.
  intros Hv Hb Hh Hl. cbn [processChild]. rewrite Hv.
  unfold getElementProcessor. now rewrite Hb, Hh, Hl.
Qed.

Lemma step_non_leaf (rec : element -> list block) (e : element)
    (next : list node) (st : state) :
  visible e = true -> isLineBreak e = false -> isThematicBreak e = false ->
  isLeafElement e = false ->
  processChild getComputedStyle rec (ElementNode e) next st =
  {| buffer := []; results := finish st ++ rec e |}.
Proof.
  intros Hv Hb Hh Hl. cbn [processChild]. rewrite Hv.
  unfold getElementProcessor. now rewrite Hb, Hh, Hl.
Qed.

End TraversalFacts.

Lemma length_positive_truthy (s : jsstring) :
  Nat.ltb 0 (length s) = truthy s.
Proof. destruct s; reflexivity. Qed.

(** The decision of the code is the decision of the specification. *)
Lemma leaf_decision (child : element) (next : list node) (buf : jsstring)
    (res : list block) :
  processLeafElement child next buf res =
  let st := {| buffer := buf; results := res |} in
  if embeddedBySpec buf (getFollowingText next)
  then merged child st else standalone child st.
Proof.
  unfold processLeafElement, hasElementSurroundingText, embeddedBySpec.
  cbv zeta. rewrite !length_positive_truthy.
  set (following := getFollowingText next).
  destruct (starts_nonword_nonspace (trimStart following));
    rewrite ?andb_false_r, ?andb_true_r, ?orb_false_r, ?orb_true_r;
    [reflexivity|].
  destruct (truthy (trim buf)); reflexivity.
Qed.

Lemma merged_not_standalone (child : element) (st : state) :
  merged child st <> standalone child st.
Proof.
  unfold merged, standalone. intros H.
  apply (f_equal results) in H. cbn [results] in H.
  rewrite finish_textBlocks in H.
  apply (f_equal (@length _)) in H. rewrite !length_app in H.
  simpl in H. lia.
Qed.

(** C2: the leaf handler, which the traversal applies to every visible
    leaf element that is not a line break or a thematic break (those two
    are dispatched before it), merges the element into the buffer
    exactly when the decision of the specification holds of the buffer
    and of the text of the following sibling, and makes it standalone
    exactly when the decision does not hold.  With an empty buffer the
    following text " More text" gives standalone and ", continued" gives
    embedded. *)
Theorem leaf_element_embedded_iff :
  (forall child next st,
     let following := getFollowingText next in
     let st' := processLeafElement child next (buffer st) (results st) in
     (st' = merged child st <->
      embeddedBySpec (buffer st) following = true) /\
     (st' = standalone child st <->
      embeddedBySpec (buffer st) following = false)) /\
  (forall getComputedStyle child next st,
     isVisible getComputedStyle child = true ->
     isLeafElement child = true ->
     isLineBreak child = false -> isThematicBreak child = false ->
     processChild getComputedStyle (processContainer getComputedStyle)
       (ElementNode child) next st =
     processLeafElement child next (buffer st) (results st)) /\
  (forall child,
     processLeafElement child [TextNode (str " More text")] [] [] =
     standalone child initial) /\
  (forall child,
     processLeafElement child [TextNode (str ", continued")] [] [] =
     merged child initial).
Proof.
  split; [|split; [|split]].
  - intros child next st following st'.
    assert (E : st' = if embeddedBySpec (buffer st) following
                      then merged child st else standalone child st).
    { unfold st'. rewrite leaf_decision. destruct st; reflexivity. }
    pose proof (merged_not_standalone child st) as Hne.
    split; split; destruct (embeddedBySpec (buffer st) following);
      rewrite E in *; congruence.
  - intros getComputedStyle child next st Hv Hl Hb Hh.
    now apply step_leaf.
  - intros child. now rewrite leaf_decision.
  - intros child. now rewrite leaf_decision.
Qed.

(** In a container, the link before " More text" is preserved and the
    link before ", continued" is merged. *)
Lemma leaf_element_embedded_iff_witness :
  processContainer hiddenStyle
    (div [ElementNode link; TextNode (str " More text")]) =
    [PreservedElement link; TextBlock (str "More text")] /\
  processContainer hiddenStyle
    (div [ElementNode link; TextNode (str ", continued")]) =
    [TextBlock (str "link, continued")].
Proof.
  destruct leaf_element_embedded_iff as (_ & Hstep & Hmore & Hcont).
  unfold div. rewrite !processContainer_traverse. cbn [traverse].
  rewrite !(Hstep hiddenStyle link _ initial eq_refl eq_refl eq_refl eq_refl).
  cbn [buffer results initial]. rewrite Hmore, Hcont.
  split; vm_compute; reflexivity.
Defined.




Section Invisible.

Variable getComputedStyle : element -> style.
Variables inv : element.
Hypothesis inv_invisible : isVisible getComputedStyle inv = false.



End Invisible.




(** ** Determinism *)

(** Induction on the tree of elements. *)
Lemma element_induction (P : element -> Prop) :
  (forall t a cs, Forall (holds_of_element P) cs -> P (Element t a cs)) ->
  forall e, P e.
Proof.
  intros H. fix IH 1. intros [t a cs]. apply H.
  induction cs as [|n ns IHns]; constructor; [|exact IHns].
  destruct n as [d | e | d]; simpl; [exact I | apply IH | exact I].
Qed.

Section TwoInvocations.

Variables style1 style2 : element -> style.

Lemma processChild_agree (rec1 rec2 : element -> list block) (child : node)
    (next : list node) (st : state) :
  (forall e, child = ElementNode e ->
     isVisible style1 e = isVisible style2 e /\ rec1 e = rec2 e) ->
  processChild style1 rec1 child next st =
  processChild style2 rec2 child next st.
Proof.
  intros H. destruct child as [d | e | d]; cbn [processChild];
    try reflexivity.
  destruct (H e eq_refl) as [Hv Hr]. rewrite Hv.
  destruct (isVisible style2 e); [|reflexivity].
  unfold getElementProcessor.
  destruct (isLineBreak e); [reflexivity|].
  destruct (isThematicBreak e); [reflexivity|].
  destruct (isLeafElement e); [reflexivity|].
  unfold processNonLeafElement. now rewrite Hr.
Qed.

Lemma traverse_agree (children : list node) :
  (forall e, In (ElementNode e) children ->
     isVisible style1 e = isVisible style2 e /\
     processContainer style1 e = processContainer style2 e) ->
  forall st, traverse style1 children st = traverse style2 children st.
Proof.
  induction children as [|child rest IH]; intros H st; [reflexivity|].
  cbn [traverse].
  rewrite (processChild_agree (processContainer style1)
             (processContainer style2) child rest st).
  - apply IH. intros e He. apply H. now right.
  - intros e ->. apply H. now left.
Qed.

End TwoInvocations.

(** C8: two invocations of the traversal on the same tree, under
    computed styles that make the same elements of the tree visible,
    return the same sequence of blocks. *)
Theorem traversal_is_deterministic (style1 style2 : element -> style)
    (c : element) :
  (forall e, inside e c -> isVisible style1 e = isVisible style2 e) ->
  processContainer style1 c = processContainer style2 c.
Proof.
  induction c as [t a cs IH] using element_induction. intros Hvis.
  rewrite !processContainer_traverse. f_equal.
  apply traverse_agree. intros e He. split.
  - apply Hvis. now constructor.
  - rewrite Forall_forall in IH. apply (IH (ElementNode e) He).
    intros e' He'. apply Hvis. now apply inside_deeper with e.
Qed.

Lemma traversal_is_deterministic_witness :
  processContainer hiddenStyle
    (div [TextNode (str "One. two"); ElementNode hiddenSpan;
          ElementNode (section_ [ElementNode link; ElementNode hr])]) =
  processContainer fadedStyle
    (div [TextNode (str "One. two"); ElementNode hiddenSpan;
          ElementNode (section_ [ElementNode link; ElementNode hr])]).
Proof.
  apply traversal_is_deterministic.
  intros [t a cs] _. unfold isVisible, hiddenStyle, fadedStyle.
  cbn [display visibility opacity].
  destruct (existsb _ a); reflexivity.
Defined.

(** ** The buffer *)

Lemma step_appends (getComputedStyle : element -> style) (child : node)
    (next : list node) (st : state) :
  let st' :=
    processChild getComputedStyle (processContainer getComputedStyle)
      child next st in
  exists added,
    results st' = results st ++ added /\
    (existsb is_preserved added = true ->
     buffer st' = [] /\
     exists tail,
       results st' =
       processBufferToResults (buffer st) (results st) ++ tail).
Proof.
  cbv zeta. destruct child as [d | e | d].
  - cbn [processChild]. unfold processTextNode.
    destruct (processLines_results (splitTextIntoLines d)
                {| buffer := buffer st; results := results st |})
      as (texts & E).
    exists (map TextBlock texts). split; [exact E|].
    rewrite map_TextBlock_not_preserved. discriminate.
  - destruct (isVisible getComputedStyle e) eqn:Hv.
    2:{ rewrite step_invisible by exact Hv. exists [].
        split; [now rewrite app_nil_r | discriminate]. }
    destruct (isLineBreak e) eqn:Hb.
    { rewrite step_line_break by assumption. cbn [buffer results].
      exists (textBlocks (splitBySentences (buffer st))).
      split; [apply finish_textBlocks|].
      rewrite textBlocks_not_preserved. discriminate. }
    destruct (isThematicBreak e) eqn:Hh.
    { rewrite step_thematic_break by assumption. cbn [buffer results].
      exists (textBlocks (splitBySentences (buffer st)) ++
              [PreservedElement (thematicBreakClone e)]).
      split; [now rewrite finish_textBlocks, <- app_assoc|].
      intros _. split; [reflexivity|]. now eexists. }
    destruct (isLeafElement e) eqn:Hl.
    + rewrite step_leaf by assumption. rewrite leaf_decision. cbv zeta.
      destruct (embeddedBySpec _ _).
      * exists []. cbn [merged buffer results].
        split; [now rewrite app_nil_r | discriminate].
      * exists (textBlocks (splitBySentences (buffer st)) ++
                [PreservedElement
                   (setTextContent e (normalizeText (textContent e)))]).
        unfold standalone. cbn [buffer results].
        split; [now rewrite finish_textBlocks, <- app_assoc|].
        intros _. split; [reflexivity|]. now eexists.
    + rewrite step_non_leaf by assumption. cbn [buffer results].
      exists (textBlocks (splitBySentences (buffer st)) ++
              processContainer getComputedStyle e).
      split; [now rewrite finish_textBlocks, <- app_assoc|].
      intros _. split; [reflexivity|]. now eexists.
  - exists []. cbn [processChild].
    split; [now rewrite app_nil_r | discriminate].
Qed.

(** C9: in every step of a container's traversal the results only grow,
    and when what a step appends contains a preserved element, the
    results after the step are the results of flushing the buffer
    (which appends text blocks only) followed by the rest, and the
    buffer after the step is empty; for a standalone leaf element and
    for a thematic break the rest is the preserved clone alone.  What
    the traversal of a container returns is the flush of the buffer
    left by its last child into the results, and the caller of a nested
    traversal goes on with an empty buffer. *)
Theorem buffer_discipline (getComputedStyle : element -> style) :
  (forall child next st,
     let st' :=
       processChild getComputedStyle (processContainer getComputedStyle)
         child next st in
     exists added,
       results st' = results st ++ added /\
       (existsb is_preserved added = true ->
        buffer st' = [] /\
        exists tail,
          results st' =
          processBufferToResults (buffer st) (results st) ++ tail)) /\
  (forall buf res,
     exists texts,
       processBufferToResults buf res = res ++ map TextBlock texts) /\
  (forall child next buf res,
     embeddedBySpec buf (getFollowingText next) = false ->
     processLeafElement child next buf res =
     {| buffer := [];
        results :=
          processBufferToResults buf res ++
          [PreservedElement
             (setTextContent child (normalizeText (textContent child)))] |}) /\
  (forall child buf res,
     processThematicBreak child buf res =
     {| buffer := [];
        results :=
          processBufferToResults buf res ++
          [PreservedElement (thematicBreakClone child)] |}) /\
  (forall child buf res,
     processNonLeafElement (processContainer getComputedStyle) child buf res =
     {| buffer := [];
        results :=
          processBufferToResults buf res ++
          processContainer getComputedStyle child |}) /\
  (forall t a children,
     processContainer getComputedStyle (Element t a children) =
     let st := traverse getComputedStyle children initial in
     processBufferToResults (buffer st) (results st)).
Proof.
  split; [|split; [|split; [|split; [|split]]]].
  - intros child next st. apply step_appends.
  - intros buf res. rewrite processBufferToResults_textBlocks.
    unfold textBlocks. eauto.
  - intros child next buf res H. rewrite leaf_decision. cbv zeta.
    now rewrite H.
  - reflexivity.
  - reflexivity.
  - intros t a children. apply processContainer_traverse.
Qed.

(** A step that appends the thematic break's clone has flushed "One. two"
    into two text blocks first and leaves the buffer empty. *)
Lemma buffer_discipline_witness :
  processChild hiddenStyle (processContainer hiddenStyle) (ElementNode hr) []
    {| buffer := str "One. two"; results := [] |} =
  {| buffer := [];
     results := [TextBlock (str "One."); TextBlock (str "two");
                 PreservedElement hr] |}.
Proof.
  destruct (buffer_discipline hiddenStyle) as (_ & _ & _ & H & _).
  change (processChild hiddenStyle (processContainer hiddenStyle)
            (ElementNode hr) [] {| buffer := str "One. two"; results := [] |})
    with (processThematicBreak hr (str "One. two") []).
  rewrite H. vm_compute. reflexivity.
Defined.

(** C10: the two flushes differ.  The flush at a newline inside a text
    node ([flushLineBuffer]) appends at most one block, the whole
    trimmed buffer, and never splits it.  Every other flush (at a line
    break, a standalone leaf, a thematic break, a nested container and
    the end of the container) goes through [processBufferToResults],
    which runs the splitter and appends one block per non-blank
    fragment.  On the buffer "A. B" the first gives one block and the
    second two, and such a buffer does reach both flushes in a
    traversal. *)
Theorem flush_paths_differ :
  (forall buf res,
     flushLineBuffer buf res =
     {| buffer := [];
        results :=
          res ++ if truthy (trim buf) then [TextBlock (trim buf)] else [] |}) /\
  (forall line text buf res,
     has_newline line = false ->
     processTextNode (line ++ NL :: text) buf res =
     let st := accumulateLine line {| buffer := buf; results := res |} in
     let flushed := flushLineBuffer (buffer st) (results st) in
     processTextNode text (buffer flushed) (results flushed)) /\
  (forall buf res,
     processBufferToResults buf res =
     res ++ textBlocks (splitBySentences buf)) /\
  (forall getComputedStyle rec e next st,
     isVisible getComputedStyle e = true ->
     let st' := processChild getComputedStyle rec (ElementNode e) next st in
     let flushed := processBufferToResults (buffer st) (results st) in
     (isLineBreak e = true -> st' = {| buffer := []; results := flushed |}) /\
     (isThematicBreak e = true ->
      st' = {| buffer := [];
               results :=
                 flushed ++ [PreservedElement (thematicBreakClone e)] |}) /\
     (isLineBreak e = false -> isThematicBreak e = false ->
      isLeafElement e = true ->
      embeddedBySpec (buffer st) (getFollowingText next) = false ->
      st' = {| buffer := [];
               results :=
                 flushed ++
                 [PreservedElement
                    (setTextContent e (normalizeText (textContent e)))] |}) /\
     (isLineBreak e = false -> isThematicBreak e = false ->
      isLeafElement e = false ->
      st' = {| buffer := []; results := flushed ++ rec e |})) /\
  (forall getComputedStyle t a children,
     processContainer getComputedStyle (Element t a children) =
     let st := traverse getComputedStyle children initial in
     processBufferToResults (buffer st) (results st)) /\
  results (flushLineBuffer (str "A. B") []) = [TextBlock (str "A. B")] /\
  processBufferToResults (str "A. B") [] =
    [TextBlock (str "A."); TextBlock (str "B")] /\
  processContainer hiddenStyle
    (div [TextNode (str "A. "); ElementNode link;
          TextNode (str "x" ++ NL :: str "y")]) =
    [TextBlock (str "A. linkx"); TextBlock (str "y")] /\
  processContainer hiddenStyle
    (div [TextNode (str "A. "); ElementNode link; TextNode (str "x");
          ElementNode br; TextNode (str "y")]) =
    [TextBlock (str "A."); TextBlock (str "linkx"); TextBlock (str "y")].
Proof.
  split; [|split; [|split; [|split; [|split]]]].
  - intros buf res. unfold flushLineBuffer. f_equal.
    destruct (truthy (trim buf)); [reflexivity | now rewrite app_nil_r].
  - intros line text buf res Hl. rewrite processTextNode_newline by exact Hl.
    cbv zeta. unfold flushLineBuffer. cbn [buffer results]. f_equal.
    destruct (truthy (trim _)); [reflexivity | now rewrite app_nil_r].
  - apply processBufferToResults_textBlocks.
  - intros getComputedStyle rec e next st Hv. cbv zeta.
    split; [|split; [|split]].
    + intros Hb. now apply step_line_break.
    + intros Hh. now apply step_thematic_break.
    + intros Hb Hh Hl Hd. rewrite step_leaf by assumption.
      rewrite leaf_decision. cbv zeta. now rewrite Hd.
    + intros Hb Hh Hl. now apply step_non_leaf.
  - intros getComputedStyle t a children. apply processContainer_traverse.
  - repeat split; vm_compute; reflexivity.
Qed.

(** At the newline after "x" the buffer "A. linkx" leaves as one block. *)
Lemma flush_paths_differ_witness :
  processTextNode (str "x" ++ NL :: str "y") (str "A. link") [] =
  {| buffer := str "y"; results := [TextBlock (str "A. linkx")] |}.
Proof.
  destruct flush_paths_differ as (_ & H & _).
  rewrite (H (str "x") (str "y") (str "A. link") [] eq_refl).
  vm_compute. reflexivity.
Defined.

(** * Further properties of the code *)

(** ** The sentence splitter *)

Lemma punct_not_blank (a b : jsstring) (c : codeunit) :
  is_punct c = true -> not_blank (a ++ c :: b).
Proof.
  intros Hc. unfold not_blank.
  destruct (truthy (trim (a ++ c :: b))) eqn:E; [reflexivity|].
  apply trim_blank_iff in E. rewrite forallb_app in E. simpl in E.
  apply punct_not_space in Hc. rewrite Hc in E.
  rewrite andb_false_r in E. discriminate.
Qed.

Lemma splitLoop_not_blank (text current : jsstring) :
  Forall not_blank (splitLoop text current []).
Proof.
  revert current.
  induction text as [| c rest Hc IH | c rest Hc IH] using splitLoop_ind;
    intros current.
  - rewrite splitLoop_nil. destruct (truthy (trim current)) eqn:E.
    + constructor; [exact E | constructor].
    + constructor.
  - rewrite splitLoop_plain by exact Hc. apply IH.
  - rewrite splitLoop_punct by exact Hc. cbv zeta.
    destruct (completes (dropWhile is_punct rest)); [|apply IH].
    rewrite splitLoop_sentences. apply Forall_app. split; [|apply IH].
    constructor; [|constructor]. now apply punct_not_blank.
Qed.

(** X1: no fragment that the splitter returns is blank: each one has a
    code unit that is not white space. *)
Theorem splitBySentences_fragments_not_blank (s : jsstring) :
  Forall (fun f => truthy (trim f) = true /\ f <> []) (splitBySentences s).
Proof.
  pose proof (splitLoop_not_blank s []) as H.
  unfold splitBySentences. induction H as [|f l Hf Hl IH]; constructor.
  - split; [exact Hf|]. intros ->. discriminate.
  - exact IH.
Qed.

Lemma takeWhile_all (p : codeunit -> bool) (s : jsstring) :
  forallb p (takeWhile p s) = true.
Proof.
  induction s as [|c s IH]; simpl; [reflexivity|].
  destruct (p c) eqn:E; simpl; [now rewrite E | reflexivity].
Qed.

Lemma last_of_run (current run : jsstring) (c : codeunit) :
  is_punct c = true -> forallb is_punct run = true ->
  ends_in_punct (current ++ c :: run) = true.
Proof.
  intros Hc Hrun. unfold ends_in_punct.
  destruct (exists_last (l := c :: run) ltac:(discriminate)) as (front & x & E).
  rewrite E, app_assoc, last_last.
  assert (H : forallb is_punct (c :: run) = true) by (simpl; now rewrite Hc).
  rewrite E, forallb_app in H. simpl in H.
  apply andb_true_iff in H as [_ H]. now rewrite andb_true_r in H.
Qed.

Lemma removelast_cons (A : Type) (x : A) (l : list A) :
  removelast (x :: l) = match l with [] => [] | _ :: _ => x :: removelast l end.
Proof. destruct l; reflexivity. Qed.

Lemma splitLoop_front_ends_in_punct (text current : jsstring) :
  Forall (fun f => ends_in_punct f = true)
    (removelast (splitLoop text current [])).
Proof.
  revert current.
  induction text as [| c rest Hc IH | c rest Hc IH] using splitLoop_ind;
    intros current.
  - rewrite splitLoop_nil. destruct (truthy (trim current)); constructor.
  - rewrite splitLoop_plain by exact Hc. apply IH.
  - rewrite splitLoop_punct by exact Hc. cbv zeta.
    destruct (completes (dropWhile is_punct rest)); [|apply IH].
    rewrite splitLoop_sentences. cbn [app]. rewrite removelast_cons.
    specialize (IH []).
    destruct (splitLoop (dropWhile is_punct rest) [] []) as [|f l];
      constructor; [|exact IH].
    apply last_of_run; [exact Hc | apply takeWhile_all].
Qed.

Lemma splitLoop_starts_with_space (text current : jsstring) :
  current ++ text = [] \/ starts_with_space (current ++ text) = true ->
  Forall (fun f => starts_with_space f = true) (splitLoop text current []).
Proof.
  revert current.
  induction text as [| c rest Hc IH | c rest Hc IH] using splitLoop_ind;
    intros current H.
  - rewrite splitLoop_nil. rewrite app_nil_r in H.
    destruct (truthy (trim current)) eqn:E; [|constructor].
    destruct H as [-> | H]; [discriminate|]. now repeat constructor.
  - rewrite splitLoop_plain by exact Hc. apply IH.
    now rewrite <- app_assoc.
  - rewrite splitLoop_punct by exact Hc. cbv zeta.
    assert (Hs : forall run, starts_with_space (current ++ c :: run) = true).
    { intros run. destruct H as [H | H].
      - now destruct current.
      - destruct current as [|x current]; [|exact H].
        simpl in H. apply punct_not_space in Hc. congruence. }
    destruct (completes (dropWhile is_punct rest)) eqn:Hcomp.
    + rewrite splitLoop_sentences. cbn [app]. constructor; [apply Hs|].
      apply IH. cbn [app].
      destruct (dropWhile is_punct rest); [now left | now right].
    + apply IH. right. specialize (Hs []).
      destruct current as [|x current]; simpl in *; exact Hs.
Qed.

Lemma splitLoop_tail_starts_with_space (text current : jsstring) :
  Forall (fun f => starts_with_space f = true)
    (tl (splitLoop text current [])).
Proof.
  revert current.
  induction text as [| c rest Hc IH | c rest Hc IH] using splitLoop_ind;
    intros current.
  - rewrite splitLoop_nil. destruct (truthy (trim current)); constructor.
  - rewrite splitLoop_plain by exact Hc. apply IH.
  - rewrite splitLoop_punct by exact Hc. cbv zeta.
    destruct (completes (dropWhile is_punct rest)) eqn:Hcomp; [|apply IH].
    rewrite splitLoop_sentences. cbn [app tl].
    apply splitLoop_starts_with_space. cbn [app].
    destruct (dropWhile is_punct rest); [now left | now right].
Qed.

(** X2: the fragments meet at punctuation followed by white space:
    every fragment except the last ends with a terminal punctuation
    mark, and every fragment except the first starts with white
    space. *)
Theorem splitBySentences_boundaries (s : jsstring) :
  Forall (fun f => ends_in_punct f = true) (removelast (splitBySentences s)) /\
  Forall (fun f => starts_with_space f = true) (tl (splitBySentences s)).
Proof.
  split.
  - apply splitLoop_front_ends_in_punct.
  - apply splitLoop_tail_starts_with_space.
Qed.

Lemma splitLoop_no_punct (text current : jsstring) :
  test_punct text = false ->
  splitLoop text current [] =
  if truthy (trim (current ++ text)) then [current ++ text] else [].
Proof.
  revert current. induction text as [|c text IH]; intros current H.
  - rewrite splitLoop_nil, app_nil_r. reflexivity.
  - unfold test_punct in H. cbn [existsb] in H.
    apply orb_false_iff in H as [Hc H].
    rewrite splitLoop_plain by exact Hc. rewrite (IH _ H).
    now rewrite <- app_assoc.
Qed.

(** X3: a text without terminal punctuation is never cut: the splitter
    returns the text itself as the only fragment, or nothing when the
    text is blank. *)
Theorem splitBySentences_no_punctuation (s : jsstring) :
  test_punct s = false ->
  splitBySentences s = if truthy (trim s) then [s] else [].
Proof. intros H. apply (splitLoop_no_punct s [] H). Qed.

Lemma splitBySentences_no_punctuation_witness :
  splitBySentences (str " no stop here ") = [str " no stop here "] /\
  splitBySentences [SP; NL; SP] = [].
Proof.
  split.
  - now rewrite (splitBySentences_no_punctuation (str " no stop here ") eq_refl).
  - now rewrite (splitBySentences_no_punctuation [SP; NL; SP] eq_refl).
Defined.

Lemma last_app_nonempty (a b : jsstring) (d : codeunit) :
  b <> [] -> last (a ++ b) d = last b d.
Proof.
  intros Hb. destruct (exists_last Hb) as (front & x & ->).
  now rewrite app_assoc, !last_last.
Qed.

Lemma space_not_punct (c : codeunit) : is_space c = true -> is_punct c = false.
Proof.
  intros H. destruct (is_punct c) eqn:E; [|reflexivity].
  apply punct_not_space in E. congruence.
Qed.

Lemma dropWhile_app_inside (p : codeunit -> bool) (s b : jsstring) :
  dropWhile p s <> [] ->
  takeWhile p (s ++ b) = takeWhile p s /\
  dropWhile p (s ++ b) = dropWhile p s ++ b.
Proof.
  induction s as [|c s IH]; simpl; [congruence|].
  destruct (p c); [|tauto].
  intros H. destruct (IH H) as [-> ->]. tauto.
Qed.

Lemma splitLoop_app (a b current : jsstring) :
  ends_in_punct a = true -> starts_with_space b = true ->
  splitLoop (a ++ b) current [] =
  splitLoop a current [] ++ splitLoop b [] [].
Proof.
  intros Ha Hb. revert current Ha.
  induction a as [| c rest Hc IH | c rest Hc IH] using splitLoop_ind;
    intros current Ha.
  - discriminate.
  - cbn [app]. rewrite !splitLoop_plain by exact Hc. apply IH.
    unfold ends_in_punct in *. destruct rest as [|x rest]; [|exact Ha].
    simpl in Ha. congruence.
  - cbn [app]. rewrite !splitLoop_punct by exact Hc. cbv zeta.
    destruct (dropWhile is_punct rest) as [|d r] eqn:Hdrop.
    + apply dropWhile_nil_iff in Hdrop.
      assert (Hstop : match b with [] => True | x :: _ => is_punct x = false end).
      { destruct b as [|x b]; [exact I|]. now apply space_not_punct. }
      destruct (dropWhile_app_stop is_punct rest b Hdrop Hstop) as [-> ->].
      assert (Htake : takeWhile is_punct rest = rest).
      { pose proof (takeWhile_dropWhile is_punct rest) as E.
        apply dropWhile_nil_iff in Hdrop. rewrite Hdrop, app_nil_r in E.
        exact E. }
      rewrite Htake. cbn [completes].
      destruct b as [|x b]; [discriminate|]. cbn [starts_with_space] in Hb.
      cbn [completes]. rewrite Hb.
      rewrite splitLoop_sentences. rewrite (splitLoop_nil [] _). reflexivity.
    + assert (Hne : dropWhile is_punct rest <> []) by (rewrite Hdrop; discriminate).
      destruct (dropWhile_app_inside is_punct rest b Hne) as [-> ->].
      rewrite Hdrop. cbn [app completes].
      assert (Hend : ends_in_punct (d :: r) = true).
      { unfold ends_in_punct in *. rewrite <- Hdrop.
        rewrite <- (takeWhile_dropWhile is_punct rest) in Ha.
        rewrite app_comm_cons, last_app_nonempty in Ha by exact Hne.
        exact Ha. }
      destruct (is_space d).
      * rewrite splitLoop_sentences. change (d :: r ++ b) with ((d :: r) ++ b).
        rewrite (IH [] Hend).
        rewrite (splitLoop_sentences (d :: r) [] [_]).
        now rewrite <- app_assoc.
      * change (d :: r ++ b) with ((d :: r) ++ b). now apply IH.
Qed.

(** X4: splitting composes at a sentence boundary: when [a] ends with
    terminal punctuation and [b] starts with white space, the fragments
    of [a ++ b] are the fragments of [a] followed by the fragments of
    [b]. *)
Theorem splitBySentences_app (a b : jsstring) :
  ends_in_punct a = true -> starts_with_space b = true ->
  splitBySentences (a ++ b) = splitBySentences a ++ splitBySentences b.
Proof. intros Ha Hb. now apply splitLoop_app. Qed.

Lemma splitBySentences_app_witness :
  splitBySentences (str "One. Two?!" ++ str " three") =
  [str "One."; str " Two?!"; str " three"].
Proof.
  rewrite (splitBySentences_app (str "One. Two?!") (str " three")
             eq_refl eq_refl).
  vm_compute. reflexivity.
Defined.

(** ** Trimming and normalizing *)

Lemma visibleChars_app (a b : jsstring) :
  visibleChars (a ++ b) = visibleChars a ++ visibleChars b.
Proof. apply filter_app. Qed.

Lemma visibleChars_blank (s : jsstring) :
  forallb is_space s = true -> visibleChars s = [].
Proof.
  induction s as [|c s IH]; simpl; [reflexivity|].
  intros H. apply andb_true_iff in H as [Hc Hs]. rewrite Hc. simpl. auto.
Qed.

Lemma trimStart_split (s : jsstring) :
  exists w, forallb is_space w = true /\ w ++ trimStart s = s.
Proof.
  exists (takeWhile is_space s). split; [apply takeWhile_all|].
  apply takeWhile_dropWhile.
Qed.

Lemma trimEnd_split (s : jsstring) :
  exists w, forallb is_space w = true /\ trimEnd s ++ w = s.
Proof.
  unfold trimEnd. exists (rev (takeWhile is_space (rev s))). split.
  - rewrite forallb_rev. apply takeWhile_all.
  - rewrite <- rev_app_distr, takeWhile_dropWhile. apply rev_involutive.
Qed.

Lemma visibleChars_trim (s : jsstring) : visibleChars (trim s) = visibleChars s.
Proof.
  unfold trim.
  destruct (trimStart_split s) as (w1 & H1 & E1).
  destruct (trimEnd_split (trimStart s)) as (w2 & H2 & E2).
  rewrite <- E1 at 2. rewrite <- E2 at 2.
  rewrite !visibleChars_app, (visibleChars_blank _ H1),
    (visibleChars_blank _ H2).
  now rewrite app_nil_r.
Qed.

Lemma trimStart_fixed (s : jsstring) :
  starts_with_space s = false -> trimStart s = s.
Proof.
  unfold trimStart. destruct s as [|c s]; simpl; [reflexivity|].
  now intros ->.
Qed.

Lemma trimEnd_fixed (s : jsstring) :
  ends_in_space s = false -> trimEnd s = s.
Proof.
  unfold ends_in_space, trimEnd. intros H.
  destruct (rev s) as [|c r] eqn:E.
  - apply (f_equal (@rev _)) in E. rewrite rev_involutive in E. now subst.
  - simpl. rewrite H. rewrite <- E. apply rev_involutive.
Qed.

Lemma trim_fixed (s : jsstring) : trimmed s -> trim s = s.
Proof.
  intros [H1 H2]. unfold trim. rewrite (trimStart_fixed s H1).
  now apply trimEnd_fixed.
Qed.

Lemma trimStart_not_space (s : jsstring) :
  starts_with_space (trimStart s) = false.
Proof.
  unfold trimStart. destruct (dropWhile is_space s) as [|c t] eqn:E;
    [reflexivity|]. simpl. now apply dropWhile_head in E.
Qed.

Lemma trimEnd_not_space (s : jsstring) : ends_in_space (trimEnd s) = false.
Proof.
  unfold trimEnd, ends_in_space. rewrite rev_involutive.
  destruct (dropWhile is_space (rev s)) as [|c t] eqn:E; [reflexivity|].
  now apply dropWhile_head in E.
Qed.

Lemma trimEnd_keeps_start (s : jsstring) :
  starts_with_space s = false -> starts_with_space (trimEnd s) = false.
Proof.
  intros H. destruct (trimEnd_split s) as (w & Hw & E).
  destruct (trimEnd s) as [|c t]; [reflexivity|].
  rewrite <- E in H. exact H.
Qed.

Lemma trim_trimmed (s : jsstring) : trimmed (trim s).
Proof.
  unfold trim. split.
  - apply trimEnd_keeps_start, trimStart_not_space.
  - apply trimEnd_not_space.
Qed.

Lemma trim_idempotent (s : jsstring) : trim (trim s) = trim s.
Proof. apply trim_fixed, trim_trimmed. Qed.

Lemma trim_blank (s : jsstring) : forallb is_space s = true -> trim s = [].
Proof.
  intros H. apply trim_blank_iff in H. now destruct (trim s).
Qed.

Lemma is_space_replace (c : codeunit) :
  is_space (if N.eqb c NL then SP else c) = is_space c.
Proof.
  destruct (N.eqb c NL) eqn:E; [|reflexivity].
  apply N.eqb_eq in E. now subst.
Qed.

Lemma visibleChars_replace_newlines (s : jsstring) :
  visibleChars (replace_newlines s) = visibleChars s.
Proof.
  induction s as [|c s IH]; [reflexivity|].
  cbn [replace_newlines map visibleChars filter].
  rewrite is_space_replace. fold (replace_newlines s).
  fold (visibleChars (replace_newlines s)). fold (visibleChars s).
  rewrite IH. destruct (is_space c) eqn:E; simpl; [reflexivity|].
  destruct (N.eqb c NL) eqn:En; [|reflexivity].
  apply N.eqb_eq in En. subst. discriminate.
Qed.

Lemma visibleChars_collapse (in_run : bool) (s : jsstring) :
  visibleChars (collapse_from in_run s) = visibleChars s.
Proof.
  revert in_run. induction s as [|c s IH]; intros in_run; [reflexivity|].
  cbn [collapse_from]. destruct (is_space c) eqn:E.
  - destruct in_run; cbn [visibleChars filter]; rewrite ?E; simpl; apply IH.
  - cbn [visibleChars filter]. rewrite E. simpl. f_equal. apply IH.
Qed.

Lemma visibleChars_normalizeText (s : jsstring) :
  visibleChars (normalizeText s) = visibleChars s.
Proof.
  unfold normalizeText, collapse_spaces.
  now rewrite visibleChars_collapse, visibleChars_replace_newlines,
    visibleChars_trim.
Qed.

(** X5: normalizing the text of a preserved element changes white space
    only: the code units that are not white space are those of the
    original text, in the same order, and a text that is white space
    only becomes empty. *)
Theorem normalizeText_keeps_visible_chars (s : jsstring) :
  visibleChars (normalizeText s) = visibleChars s /\
  (forallb is_space s = true -> normalizeText s = []).
Proof.
  split; [apply visibleChars_normalizeText|].
  intros H. unfold normalizeText. now rewrite (trim_blank _ H).
Qed.

Lemma collapse_in_run_not_space (s : jsstring) :
  starts_with_space (collapse_from true s) = false.
Proof.
  induction s as [|c s IH]; [reflexivity|]. cbn [collapse_from].
  destruct (is_space c) eqn:E; [exact IH | simpl; exact E].
Qed.

Lemma collapse_single_spaced (in_run : bool) (s : jsstring) :
  single_spaced (collapse_from in_run s) = true.
Proof.
  revert in_run. induction s as [|c s IH]; intros in_run; [reflexivity|].
  cbn [collapse_from]. destruct (is_space c) eqn:E.
  - destruct in_run; [apply IH|]. cbn [single_spaced].
    rewrite IH, collapse_in_run_not_space. reflexivity.
  - cbn [single_spaced]. rewrite E, IH. reflexivity.
Qed.

Lemma collapse_starts (s : jsstring) :
  starts_with_space (collapse_from false s) = starts_with_space s.
Proof.
  destruct s as [|c s]; [reflexivity|]. cbn [collapse_from].
  destruct (is_space c) eqn:E; simpl; rewrite ?E; reflexivity.
Qed.

Lemma collapse_nil (in_run : bool) (s : jsstring) :
  collapse_from in_run s = [] -> forallb is_space s = true.
Proof.
  revert in_run. induction s as [|c s IH]; intros in_run; [reflexivity|].
  cbn [collapse_from forallb]. destruct (is_space c).
  - destruct in_run; [apply IH | discriminate].
  - discriminate.
Qed.

Lemma ends_in_space_last (s : jsstring) :
  ends_in_space s = is_space (last s 0%N).
Proof.
  unfold ends_in_space. destruct s as [|c s] using rev_ind; [reflexivity|].
  now rewrite rev_app_distr, last_last.
Qed.

Lemma blank_ends_in_space (s : jsstring) :
  s <> [] -> forallb is_space s = true -> ends_in_space s = true.
Proof. intros Hne H. now apply (ends_in_space_app [] s). Qed.

Lemma collapse_last (in_run : bool) (s : jsstring) :
  ends_in_space s = false ->
  ends_in_space (collapse_from in_run s) = false.
Proof.
  rewrite !ends_in_space_last. revert in_run.
  induction s as [|c s IH]; intros in_run H; [reflexivity|].
  destruct s as [|d s].
  - simpl in H. cbn [collapse_from]. rewrite H. exact H.
  - change (last (c :: d :: s) 0%N) with (last (d :: s) 0%N) in H.
    assert (Hnil : d :: s <> []) by discriminate.
    remember (d :: s) as t eqn:Et. clear Et.
    assert (Hne : forall b, collapse_from b t <> []).
    { intros b Hc. apply collapse_nil in Hc.
      apply blank_ends_in_space in Hc; [|exact Hnil].
      rewrite ends_in_space_last in Hc. congruence. }
    assert (Hlast : forall b x,
               last (x :: collapse_from b t) 0%N =
               last (collapse_from b t) 0%N).
    { intros b x. specialize (Hne b).
      destruct (collapse_from b t); [contradiction | reflexivity]. }
    cbn [collapse_from]. destruct (is_space c).
    + destruct in_run; [now apply IH|]. rewrite Hlast. now apply IH.
    + rewrite Hlast. now apply IH.
Qed.

Lemma replace_newlines_starts (s : jsstring) :
  starts_with_space (replace_newlines s) = starts_with_space s.
Proof. destruct s as [|c s]; [reflexivity | apply is_space_replace]. Qed.

Lemma replace_newlines_ends (s : jsstring) :
  ends_in_space (replace_newlines s) = ends_in_space s.
Proof.
  rewrite !ends_in_space_last. unfold replace_newlines.
  induction s as [|c s IH]; [reflexivity|].
  destruct s as [|d s]; [apply is_space_replace | exact IH].
Qed.

Lemma normalizeText_shape (s : jsstring) :
  trimmed (normalizeText s) /\ single_spaced (normalizeText s) = true.
Proof.
  unfold normalizeText, collapse_spaces.
  destruct (trim_trimmed s) as [H1 H2]. split; [split|].
  - now rewrite collapse_starts, replace_newlines_starts.
  - apply collapse_last. now rewrite replace_newlines_ends.
  - apply collapse_single_spaced.
Qed.

Lemma single_spaced_no_newline (s : jsstring) :
  single_spaced s = true -> replace_newlines s = s.
Proof.
  induction s as [|c s IH]; [reflexivity|]. cbn [single_spaced].
  intros H. apply andb_true_iff in H as [Hc Hs].
  cbn [replace_newlines map]. fold (replace_newlines s). rewrite (IH Hs).
  destruct (N.eqb c NL) eqn:E; [|reflexivity].
  apply N.eqb_eq in E. subst c. discriminate.
Qed.

Lemma single_spaced_collapse (s : jsstring) :
  single_spaced s = true ->
  collapse_from false s = s /\
  (starts_with_space s = false -> collapse_from true s = s).
Proof.
  induction s as [|c s IH]; [now split|]. cbn [single_spaced].
  intros H. apply andb_true_iff in H as [Hc Hs].
  destruct (IH Hs) as [IH1 IH2]. cbn [collapse_from starts_with_space].
  destruct (is_space c) eqn:E.
  - apply andb_true_iff in Hc as [Hsp Hnext].
    apply N.eqb_eq in Hsp. apply negb_true_iff in Hnext. subst c.
    split; [|discriminate]. now rewrite IH2.
  - rewrite IH1. now split.
Qed.

(** X6: the normalized text is in normal form: it has no white space at
    either end, and every white-space code unit in it is a space with no
    white space next to it; in particular it has no newline. *)
Theorem normalizeText_normal_form (s : jsstring) :
  trimmed (normalizeText s) /\
  single_spaced (normalizeText s) = true /\
  has_newline (normalizeText s) = false.
Proof.
  destruct (normalizeText_shape s) as [Ht Hs]. repeat split; try apply Ht;
    try exact Hs.
  revert Hs. generalize (normalizeText s). intros n.
  unfold has_newline. induction n as [|c n IH]; [reflexivity|].
  cbn [single_spaced existsb]. intros H.
  apply andb_true_iff in H as [Hc Hn]. rewrite (IH Hn), orb_false_r.
  destruct (N.eqb NL c) eqn:E; [|reflexivity].
  apply N.eqb_eq in E. subst c. discriminate.
Qed.

(** X7: normalizing is idempotent: a text that has been normalized is
    left as it is by a second normalization. *)
Theorem normalizeText_idempotent (s : jsstring) :
  normalizeText (normalizeText s) = normalizeText s.
Proof.
  destruct (normalizeText_shape s) as [Ht Hs].
  unfold normalizeText at 1. rewrite (trim_fixed _ Ht).
  rewrite (single_spaced_no_newline _ Hs).
  now apply single_spaced_collapse.
Qed.

(** ** What the traversal puts in the results *)

Section BlockInvariant.

Variable getComputedStyle : element -> style.
Variable Q : block -> Prop.
Hypothesis Q_text : forall s, s <> [] -> trim s = s -> Q (TextBlock s).

Lemma textBlocks_invariant (sentences : list jsstring) :
  Forall Q (textBlocks sentences).
Proof.
  unfold textBlocks. induction sentences as [|s ss IH]; [constructor|].
  cbn [map filter]. destruct (truthy (trim s)) eqn:E; [|exact IH].
  cbn [map]. constructor; [|exact IH].
  apply Q_text; [|apply trim_idempotent]. intros H. now rewrite H in E.
Qed.

Lemma finish_invariant (st : state) :
  Forall Q (results st) -> Forall Q (finish st).
Proof.
  intros H. rewrite finish_textBlocks. apply Forall_app.
  split; [exact H | apply textBlocks_invariant].
Qed.

Lemma processLineForSentences_invariant (line buf : jsstring)
    (res : list block) :
  Forall Q res -> Forall Q (results (processLineForSentences line buf res)).
Proof.
  intros H. unfold processLineForSentences. cbv zeta.
  destruct (Nat.ltb 1 _); cbn [results]; [|exact H].
  rewrite pushSentences_textBlocks. apply Forall_app.
  split; [exact H | apply textBlocks_invariant].
Qed.

Lemma processLines_invariant (lines : list jsstring) (st : state) :
  Forall Q (results st) -> Forall Q (results (processLines lines st)).
Proof.
  revert st. induction lines as [|line rest IH]; intros st H; [exact H|].
  cbn [processLines]. cbv zeta. apply IH.
  assert (H1 : Forall Q (results (accumulateLine line st))).
  { unfold accumulateLine. destruct (test_punct line); [|exact H].
    now apply processLineForSentences_invariant. }
  destruct rest as [|line' rest]; [exact H1|].
  unfold flushLineBuffer. cbn [results].
  destruct (truthy (trim _)) eqn:E; [|exact H1].
  apply Forall_app. split; [exact H1|]. constructor; [|constructor].
  apply Q_text; [|apply trim_idempotent]. intros Hn. now rewrite Hn in E.
Qed.

Lemma processChild_invariant (rec : element -> list block) (child : node)
    (next : list node) (st : state) :
  (forall e, child = ElementNode e ->
     isVisible getComputedStyle e = true -> isLineBreak e = false ->
     (isThematicBreak e = true ->
      Q (PreservedElement (thematicBreakClone e))) /\
     (isThematicBreak e = false -> isLeafElement e = true ->
      Q (PreservedElement
           (setTextContent e (normalizeText (textContent e))))) /\
     (isThematicBreak e = false -> isLeafElement e = false ->
      Forall Q (rec e))) ->
  Forall Q (results st) ->
  Forall Q (results (processChild getComputedStyle rec child next st)).
Proof.
  intros Hel H. destruct child as [d | e | d]; cbn [processChild];
    [now apply processLines_invariant | | exact H].
  destruct (isVisible getComputedStyle e) eqn:Hv; [|exact H].
  pose proof (finish_invariant st H) as Hf.
  unfold getElementProcessor. destruct (isLineBreak e) eqn:Hb; [exact Hf|].
  destruct (Hel e eq_refl Hv Hb) as (Hhr & Hleaf & Hrec).
  destruct (isThematicBreak e) eqn:Hh.
  { unfold processThematicBreak. cbn [results]. apply Forall_app.
    split; [exact Hf|]. constructor; [now apply Hhr | constructor]. }
  destruct (isLeafElement e) eqn:Hl.
  - rewrite leaf_decision. cbv zeta. destruct (embeddedBySpec _ _).
    + exact H.
    + unfold standalone. cbn [results buffer]. apply Forall_app.
      split; [exact Hf|]. constructor; [now apply Hleaf | constructor].
  - unfold processNonLeafElement. cbn [results]. apply Forall_app.
    split; [exact Hf | now apply Hrec].
Qed.

End BlockInvariant.

Lemma thematicBreakClone_normalized (e : element) :
  normalized_clone (thematicBreakClone e) e.
Proof.
  unfold thematicBreakClone, normalized_clone.
  destruct (truthy (textContent e)); [now right | now left].
Qed.

Lemma Forall_In_element (P : element -> Prop) (cs : list node) (e : element) :
  Forall (holds_of_element P) cs -> In (ElementNode e) cs -> P e.
Proof.
  intros H Hin. rewrite Forall_forall in H. exact (H _ Hin).
Qed.

Lemma processContainer_well_formed
    (getComputedStyle : element -> style) (c : element) :
  Forall well_formed_block (processContainer getComputedStyle c).
Proof.
  induction c as [t a cs IH] using element_induction.
  rewrite processContainer_traverse.
  assert (Htext : forall s, s <> [] -> trim s = s ->
                            well_formed_block (TextBlock s))
    by (intros s H1 H2; now split).
  apply (finish_invariant well_formed_block Htext).
  assert (H : forall children st,
             (forall n, In n children -> In n cs) ->
             Forall well_formed_block (results st) ->
             Forall well_formed_block
               (results (traverse getComputedStyle children st))).
  { induction children as [|child rest IHc]; intros st Hsub Hst;
      [exact Hst|].
    cbn [traverse]. apply IHc; [intros n Hn; apply Hsub; now right|].
    apply (processChild_invariant getComputedStyle well_formed_block Htext);
      [|exact Hst].
    intros e -> _ _. repeat split; try exact I.
    intros _ _. apply (Forall_In_element _ cs e IH). apply Hsub. now left. }
  apply H; [auto | constructor].
Qed.

(** X8: every text block that the traversal of a container returns
    holds a text that is not empty and has no white space at either
    end. *)
Theorem processContainer_text_blocks_trimmed
    (getComputedStyle : element -> style) (c : element) :
  Forall (fun b => match b with
                   | TextBlock s => s <> [] /\ trim s = s
                   | PreservedElement _ => True
                   end)
    (processContainer getComputedStyle c).
Proof. apply processContainer_well_formed. Qed.

(** X9: every preserved element that the traversal of a container
    returns is the clone of a visible element inside the container that
    is a thematic break or a leaf and not a line break: the element
    itself, or the element with its children replaced by its normalized
    text.  Nothing else is ever preserved. *)
Theorem processContainer_preserved_come_from
    (getComputedStyle : element -> style) (c : element) :
  Forall (comes_from getComputedStyle c) (processContainer getComputedStyle c).
Proof.
  induction c as [t a cs IH] using element_induction.
  rewrite processContainer_traverse.
  set (Q := comes_from getComputedStyle (Element t a cs)).
  assert (Htext : forall s, s <> [] -> trim s = s -> Q (TextBlock s))
    by (intros; exact I).
  apply (finish_invariant Q Htext).
  assert (H : forall children st,
             (forall n, In n children -> In n cs) ->
             Forall Q (results st) ->
             Forall Q (results (traverse getComputedStyle children st))).
  { induction children as [|child rest IHc]; intros st Hsub Hst;
      [exact Hst|].
    cbn [traverse]. apply IHc; [intros n Hn; apply Hsub; now right|].
    apply (processChild_invariant getComputedStyle Q Htext); [|exact Hst].
    intros e -> Hv Hb.
    assert (Hin : In (ElementNode e) cs) by (apply Hsub; now left).
    split; [|split].
    - intros Hh. exists e. repeat split; auto.
      + now constructor.
      + apply thematicBreakClone_normalized.
    - intros Hh Hl. exists e. repeat split; auto.
      + now constructor.
      + now right.
    - intros Hh Hl. pose proof (Forall_In_element _ cs e IH Hin) as Hrec.
      eapply Forall_impl; [|exact Hrec].
      intros [s | e'] Hb'; [exact I|].
      destruct Hb' as (e0 & Hins & Hrest). exists e0.
      split; [|exact Hrest]. now apply inside_deeper with e. }
  apply H; [auto | constructor].
Qed.

(** ** How containers decompose *)

Lemma getFollowingText_comment (next after : list node) (d : jsstring) :
  getFollowingText (next ++ CommentNode d :: after) =
  getFollowingText (next ++ after).
Proof.
  induction next as [|[x | e | x] next IH]; cbn; auto.
Qed.

(** X10: a comment node is transparent: it changes neither the buffer
    nor the results, and the lookahead of a leaf element before it looks
    past it, so the result of a container is the result of the
    container without the comment. *)
Theorem comment_node_is_transparent (getComputedStyle : element -> style)
    t a (pre post : list node) (d : jsstring) :
  processContainer getComputedStyle
    (Element t a (pre ++ CommentNode d :: post)) =
  processContainer getComputedStyle (Element t a (pre ++ post)).
Proof.
  rewrite !processContainer_traverse. f_equal. generalize initial.
  induction pre as [|c pre IH]; intros st; [reflexivity|].
  cbn [app traverse].
  rewrite (processChild_following getComputedStyle _ c
             (pre ++ CommentNode d :: post) (pre ++ post))
    by apply getFollowingText_comment.
  apply IH.
Qed.

(** An element whose step flushes the buffer, appends [mid] and leaves
    the buffer empty cuts the container in two. *)
Lemma barrier_splits (getComputedStyle : element -> style) (e : element)
    (mid : list block) t a (pre post : list node) :
  (forall next st,
     processChild getComputedStyle (processContainer getComputedStyle)
       (ElementNode e) next st =
     {| buffer := []; results := finish st ++ mid |}) ->
  processContainer getComputedStyle (Element t a (pre ++ ElementNode e :: post)) =
  processContainer getComputedStyle (Element t a pre) ++ mid ++
  processContainer getComputedStyle (Element t a post).
Proof.
  intros Hstep.
  rewrite (processContainer_traverse getComputedStyle t a (pre ++ _)).
  rewrite (processContainer_traverse getComputedStyle t a pre).
  generalize initial.
  induction pre as [|c pre IH]; intros st.
  - cbn [app traverse]. rewrite Hstep.
    rewrite (traverse_from_empty getComputedStyle t a).
    now rewrite <- app_assoc.
  - cbn [app traverse].
    rewrite (processChild_following getComputedStyle _ c
               (pre ++ ElementNode e :: post) pre)
      by apply getFollowingText_barrier.
    apply IH.
Qed.

(** X11: a visible line break cuts its container in two and adds
    nothing of its own: the result is the result of the children before
    it followed by the result of the children after it, each processed
    as a container of its own. *)
Theorem line_break_splits_container (getComputedStyle : element -> style)
    (e : element) t a (pre post : list node) :
  isVisible getComputedStyle e = true -> isLineBreak e = true ->
  processContainer getComputedStyle (Element t a (pre ++ ElementNode e :: post)) =
  processContainer getComputedStyle (Element t a pre) ++
  processContainer getComputedStyle (Element t a post).
Proof.
  intros Hv Hb.
  rewrite (barrier_splits getComputedStyle e [] t a pre post);
    [reflexivity|].
  intros next st. rewrite step_line_break by assumption.
  now rewrite app_nil_r.
Qed.

Lemma line_break_splits_container_witness :
  processContainer hiddenStyle
    (div [TextNode (str "one"); ElementNode br; TextNode (str "two")]) =
  [TextBlock (str "one"); TextBlock (str "two")].
Proof.
  change (div [TextNode (str "one"); ElementNode br; TextNode (str "two")])
    with (Element (str "DIV") []
            ([TextNode (str "one")] ++ ElementNode br :: [TextNode (str "two")])).
  rewrite (line_break_splits_container hiddenStyle br (str "DIV") []
             [TextNode (str "one")] [TextNode (str "two")] eq_refl eq_refl).
  vm_compute. reflexivity.
Defined.

(** X12: a visible child that has element children (and is neither a
    line break nor a thematic break) is processed as a container of its
    own, between the result of the children before it and the result of
    the children after it: text never flows into it or out of it. *)
Theorem nested_container_splits_container
    (getComputedStyle : element -> style) (e : element) t a
    (pre post : list node) :
  isVisible getComputedStyle e = true ->
  isLineBreak e = false -> isThematicBreak e = false ->
  isLeafElement e = false ->
  processContainer getComputedStyle (Element t a (pre ++ ElementNode e :: post)) =
  processContainer getComputedStyle (Element t a pre) ++
  processContainer getComputedStyle e ++
  processContainer getComputedStyle (Element t a post).
Proof.
  intros Hv Hb Hh Hl. apply barrier_splits.
  intros next st. now apply step_non_leaf.
Qed.

Lemma nested_container_splits_container_witness :
  processContainer hiddenStyle
    (div [TextNode (str "one");
          ElementNode (section_ [ElementNode link; TextNode (str ", two")]);
          TextNode (str "three")]) =
  [TextBlock (str "one"); TextBlock (str "link, two");
   TextBlock (str "three")].
Proof.
  change (div [TextNode (str "one");
               ElementNode (section_ [ElementNode link; TextNode (str ", two")]);
               TextNode (str "three")])
    with (Element (str "DIV") []
            ([TextNode (str "one")] ++
             ElementNode (section_ [ElementNode link; TextNode (str ", two")])
             :: [TextNode (str "three")])).
  rewrite (nested_container_splits_container hiddenStyle
             (section_ [ElementNode link; TextNode (str ", two")])
             (str "DIV") [] [TextNode (str "one")] [TextNode (str "three")]
             eq_refl eq_refl eq_refl eq_refl).
  vm_compute. reflexivity.
Defined.

(** ** The decision for a leaf element *)

(** X13: whether a leaf element is merged depends on two things only:
    whether the buffer has something other than white space, and
    whether the following text, leading white space stripped, begins
    with a code unit that is neither a word character nor white space.
    The test of [hasElementSurroundingText] for one punctuation mark
    followed by white space has no effect on the outcome: a leaf before
    ". Next" is merged although that function answers no. *)
Theorem leaf_decision_two_tests (child : element) (next : list node)
    (buf : jsstring) (res : list block) :
  processLeafElement child next buf res =
    (if (truthy (trim buf)
         || starts_nonword_nonspace (trimStart (getFollowingText next)))%bool
     then merged child {| buffer := buf; results := res |}
     else standalone child {| buffer := buf; results := res |}) /\
  hasElementSurroundingText [] (str ". Next") = false /\
  processLeafElement child [TextNode (str ". Next")] [] res =
    merged child {| buffer := []; results := res |}.
Proof.
  assert (E : forall nxt b,
             embeddedBySpec b (getFollowingText nxt) =
             (truthy (trim b)
              || starts_nonword_nonspace (trimStart (getFollowingText nxt)))%bool).
  { intros nxt b. unfold embeddedBySpec.
    destruct (starts_nonword_nonspace _); rewrite ?andb_false_r, ?orb_false_r,
      ?orb_true_r; reflexivity. }
  split; [|split].
  - rewrite leaf_decision. cbv zeta. now rewrite E.
  - reflexivity.
  - rewrite leaf_decision. cbv zeta. now rewrite E.
Qed.

(** ** Nothing is lost and nothing is repeated *)

Lemma shownText_nodes (getComputedStyle : element -> style) t a
    (cs : list node) :
  shownText getComputedStyle (Element t a cs) =
  concat (map (shownNode getComputedStyle) cs).
Proof.
  cbn [shownText]. induction cs as [|n cs IH]; [reflexivity|].
  cbn [map concat]. rewrite <- IH. destruct n; reflexivity.
Qed.

Lemma blocksChars_app (a b : list block) :
  blocksChars (a ++ b) = blocksChars a ++ blocksChars b.
Proof.
  unfold blocksChars. now rewrite map_app, concat_app, visibleChars_app.
Qed.

Lemma blocksChars_textBlocks (sentences : list jsstring) :
  blocksChars (textBlocks sentences) = visibleChars (concat sentences).
Proof.
  unfold blocksChars, textBlocks.
  induction sentences as [|s ss IH]; [reflexivity|].
  cbn [map filter concat]. rewrite visibleChars_app, <- IH.
  destruct (truthy (trim s)) eqn:E.
  - cbn [map concat blockText]. rewrite visibleChars_app.
    now rewrite visibleChars_trim.
  - apply trim_blank_iff in E. now rewrite (visibleChars_blank _ E).
Qed.

Lemma visibleChars_splitBySentences (s : jsstring) :
  visibleChars (concat (splitBySentences s)) = visibleChars s.
Proof.
  destruct (splitLoop_concat s [] []) as (w & Hw & E). simpl in E.
  fold (splitBySentences s) in E. rewrite <- E at 2.
  rewrite visibleChars_app, (visibleChars_blank _ Hw). now rewrite app_nil_r.
Qed.

Lemma blocksChars_finish (st : state) : blocksChars (finish st) = stateChars st.
Proof.
  rewrite finish_textBlocks, blocksChars_app, blocksChars_textBlocks.
  now rewrite visibleChars_splitBySentences.
Qed.

Lemma stateChars_processLineForSentences (line buf : jsstring)
    (res : list block) :
  stateChars (processLineForSentences line buf res) =
  blocksChars res ++ visibleChars buf ++ visibleChars line.
Proof.
  unfold processLineForSentences, stateChars. cbv zeta.
  rewrite <- visibleChars_app.
  destruct (Nat.ltb 1 _) eqn:Hlen; cbn [buffer results]; [|reflexivity].
  rewrite pushSentences_textBlocks, blocksChars_app, blocksChars_textBlocks.
  rewrite <- app_assoc. f_equal.
  rewrite <- (visibleChars_splitBySentences (buf ++ line)).
  assert (Hne : splitBySentences (buf ++ line) <> []).
  { intros Hn. rewrite Hn in Hlen. discriminate. }
  destruct (exists_last Hne) as (front & f & E). rewrite E.
  destruct (last_index _ front f []) as [-> ->].
  rewrite concat_app, visibleChars_app. cbn [concat].
  now rewrite app_nil_r.
Qed.

Lemma stateChars_accumulateLine (line : jsstring) (st : state) :
  stateChars (accumulateLine line st) = stateChars st ++ visibleChars line.
Proof.
  unfold accumulateLine. destruct (test_punct line).
  - rewrite stateChars_processLineForSentences. unfold stateChars.
    now rewrite <- app_assoc.
  - unfold stateChars. cbn [buffer results].
    now rewrite visibleChars_app, app_assoc.
Qed.

Lemma stateChars_flushLineBuffer (st : state) :
  stateChars (flushLineBuffer (buffer st) (results st)) = stateChars st.
Proof.
  unfold flushLineBuffer, stateChars. cbn [buffer results].
  rewrite app_nil_r. destruct (truthy (trim (buffer st))) eqn:E.
  - rewrite blocksChars_app. unfold blocksChars at 2.
    cbn [map concat blockText]. now rewrite app_nil_r, visibleChars_trim.
  - apply trim_blank_iff in E. rewrite (visibleChars_blank _ E).
    now rewrite app_nil_r.
Qed.

Lemma stateChars_processLines (lines : list jsstring) (st : state) :
  stateChars (processLines lines st) =
  stateChars st ++ visibleChars (concat lines).
Proof.
  revert st. induction lines as [|line rest IH]; intros st.
  - simpl. now rewrite app_nil_r.
  - cbn [processLines concat]. cbv zeta. rewrite IH.
    rewrite visibleChars_app, app_assoc. f_equal.
    destruct rest as [|line' rest].
    + apply stateChars_accumulateLine.
    + rewrite stateChars_flushLineBuffer. apply stateChars_accumulateLine.
Qed.

Lemma visibleChars_lines (text acc : jsstring) :
  visibleChars (concat (split_lines_aux text acc)) = visibleChars (acc ++ text).
Proof.
  revert acc. induction text as [|c text IH]; intros acc.
  - cbn [split_lines_aux concat]. reflexivity.
  - cbn [split_lines_aux]. destruct (N.eqb c NL) eqn:E.
    + apply N.eqb_eq in E. subst c. cbn [concat].
      rewrite !visibleChars_app, IH. reflexivity.
    + rewrite IH. now rewrite <- app_assoc.
Qed.

Lemma stateChars_processTextNode (text : jsstring) (st : state) :
  stateChars (processTextNode text (buffer st) (results st)) =
  stateChars st ++ visibleChars text.
Proof.
  unfold processTextNode, splitTextIntoLines.
  rewrite stateChars_processLines, visibleChars_lines. reflexivity.
Qed.

Lemma textContent_setTextContent (e : element) (s : jsstring) :
  textContent (setTextContent e s) = s.
Proof.
  destruct e as [t a cs]. destruct s as [|c s]; [reflexivity|].
  cbn. now rewrite app_nil_r.
Qed.

Lemma visibleChars_thematicBreakClone (e : element) :
  visibleChars (textContent (thematicBreakClone e)) =
  visibleChars (textContent e).
Proof.
  unfold thematicBreakClone. destruct (truthy (textContent e));
    [|reflexivity].
  now rewrite textContent_setTextContent, visibleChars_normalizeText.
Qed.

Lemma blocksChars_preserved (e : element) :
  blocksChars [PreservedElement e] = visibleChars (textContent e).
Proof. unfold blocksChars. cbn. now rewrite app_nil_r. Qed.

Lemma stateChars_processChild (getComputedStyle : element -> style)
    (rec : element -> list block) (child : node) (next : list node)
    (st : state) :
  (forall e, child = ElementNode e ->
     blocksChars (rec e) = visibleChars (shownText getComputedStyle e)) ->
  stateChars (processChild getComputedStyle rec child next st) =
  stateChars st ++ visibleChars (shownNode getComputedStyle child).
Proof.
  intros Hrec. destruct child as [d | e | d]; cbn [processChild shownNode].
  - apply stateChars_processTextNode.
  - destruct (isVisible getComputedStyle e); [|now rewrite app_nil_r].
    unfold getElementProcessor.
    assert (Hflush : forall tail,
               stateChars {| buffer := []; results := finish st ++ tail |} =
               stateChars st ++ blocksChars tail).
    { intros tail. unfold stateChars at 1. cbn [buffer results].
      now rewrite app_nil_r, blocksChars_app, blocksChars_finish. }
    destruct (isLineBreak e).
    { unfold processLineBreak. fold (finish st).
      rewrite <- (app_nil_r (finish st)). now rewrite Hflush. }
    destruct (isThematicBreak e).
    { unfold processThematicBreak. fold (finish st).
      rewrite Hflush, blocksChars_preserved.
      now rewrite visibleChars_thematicBreakClone. }
    destruct (isLeafElement e).
    + rewrite leaf_decision. cbv zeta. destruct (embeddedBySpec _ _).
      * unfold merged, stateChars. cbn [buffer results].
        now rewrite visibleChars_app, visibleChars_trim, app_assoc.
      * unfold standalone. cbn [buffer results]. change
          (finish {| buffer := buffer st; results := results st |})
          with (finish st).
        rewrite Hflush, blocksChars_preserved, textContent_setTextContent.
        now rewrite visibleChars_normalizeText.
    + unfold processNonLeafElement. fold (finish st).
      rewrite Hflush. now rewrite (Hrec e eq_refl).
  - now rewrite app_nil_r.
Qed.

Lemma blocksChars_processContainer (getComputedStyle : element -> style)
    (c : element) :
  blocksChars (processContainer getComputedStyle c) =
  visibleChars (shownText getComputedStyle c).
Proof.
  induction c as [t a cs IH] using element_induction.
  rewrite processContainer_traverse, blocksChars_finish, shownText_nodes.
  assert (H : forall children st,
             (forall n, In n children -> In n cs) ->
             stateChars (traverse getComputedStyle children st) =
             stateChars st ++
             visibleChars (concat (map (shownNode getComputedStyle) children))).
  { induction children as [|child rest IHc]; intros st Hsub.
    - simpl. now rewrite app_nil_r.
    - cbn [traverse map concat]. rewrite IHc
        by (intros n Hn; apply Hsub; now right).
      rewrite stateChars_processChild.
      + now rewrite visibleChars_app, app_assoc.
      + intros e ->. apply (Forall_In_element _ cs e IH). apply Hsub.
        now left. }
  rewrite H by auto. reflexivity.
Qed.

(** X14: the traversal loses nothing and repeats nothing: the code units
    other than white space of the blocks that it returns, read in
    order, are exactly those of the text it reads in the container
    (text nodes, visible leaves and thematic breaks, visible nested
    containers), in document order. *)
Theorem processContainer_conserves_text (getComputedStyle : element -> style)
    (c : element) :
  visibleChars (concat (map blockText (processContainer getComputedStyle c))) =
  visibleChars (shownText getComputedStyle c).
Proof. apply blocksChars_processContainer. Qed.

(** ** White space between elements *)

Lemma dropWhile_app_all (p : codeunit -> bool) (a b : jsstring) :
  forallb p a = true -> dropWhile p (a ++ b) = dropWhile p b.
Proof.
  induction a as [|c a IH]; simpl; [reflexivity|].
  intros H. apply andb_true_iff in H as [Hc Ha]. rewrite Hc. now apply IH.
Qed.

Lemma trimEnd_app_blank (s w : jsstring) :
  forallb is_space w = true -> trimEnd (s ++ w) = trimEnd s.
Proof.
  intros Hw. unfold trimEnd. rewrite rev_app_distr.
  rewrite dropWhile_app_all by (now rewrite forallb_rev). reflexivity.
Qed.

Lemma trim_app_blank (s w : jsstring) :
  forallb is_space w = true -> trim (s ++ w) = trim s.
Proof.
  intros Hw. unfold trim, trimStart.
  destruct (dropWhile is_space s) as [|c t] eqn:E.
  - apply dropWhile_nil_iff in E. rewrite dropWhile_app_all by exact E.
    apply dropWhile_nil_iff in Hw. now rewrite Hw.
  - assert (Hne : dropWhile is_space s <> []) by (rewrite E; discriminate).
    destruct (dropWhile_app_inside is_space s w Hne) as [_ ->].
    rewrite E. now apply trimEnd_app_blank.
Qed.

Lemma lines_blank (text acc : jsstring) :
  forallb is_space text = true -> forallb is_space acc = true ->
  Forall (fun l => forallb is_space l = true) (split_lines_aux text acc).
Proof.
  revert acc. induction text as [|c text IH]; intros acc Ht Ha.
  - now repeat constructor.
  - cbn [forallb] in Ht. apply andb_true_iff in Ht as [Hc Ht].
    cbn [split_lines_aux]. destruct (N.eqb c NL).
    + constructor; [exact Ha | now apply IH].
    + apply IH; [exact Ht|]. rewrite forallb_app, Ha. simpl. now rewrite Hc.
Qed.

Lemma lines_after_newline (text acc : jsstring) :
  has_newline text = true ->
  exists l1 l2 ls, split_lines_aux text acc = l1 :: l2 :: ls.
Proof.
  unfold has_newline. revert acc.
  induction text as [|c text IH]; intros acc H; [discriminate|].
  cbn [existsb] in H. cbn [split_lines_aux]. rewrite N.eqb_sym in H.
  destruct (N.eqb c NL).
  - destruct (split_lines_aux text []) as [|l2 ls] eqn:E.
    + now apply split_lines_aux_nonempty in E.
    + now exists acc, l2, ls.
  - now apply IH.
Qed.

Lemma processLines_blank (lines : list jsstring) (st : state) :
  Forall (fun l => forallb is_space l = true) lines ->
  forallb is_space (buffer st) = true ->
  results (processLines lines st) = results st /\
  forallb is_space (buffer (processLines lines st)) = true.
Proof.
  intros Hl. revert st. induction Hl as [|line rest Hline Hrest IH];
    intros st Hb; [now split|].
  cbn [processLines]. cbv zeta. unfold accumulateLine.
  rewrite (blank_no_punct _ Hline). cbn [buffer results].
  assert (Hbl : forallb is_space (buffer st ++ line) = true)
    by (now rewrite forallb_app, Hb, Hline).
  destruct rest as [|line' rest].
  - cbn [processLines buffer results]. now split.
  - unfold flushLineBuffer. rewrite (trim_blank _ Hbl). cbn [truthy].
    destruct (IH {| buffer := []; results := results st |} eq_refl)
      as [E1 E2].
    now split.
Qed.

Lemma processLines_cons2 (l1 l2 : jsstring) (ls : list jsstring) (st : state) :
  processLines (l1 :: l2 :: ls) st =
  processLines (l2 :: ls)
    (flushLineBuffer (buffer (accumulateLine l1 st))
       (results (accumulateLine l1 st))).
Proof. reflexivity. Qed.

(** X15: a text node of white space only that contains a newline, such
    as the indentation between two tags, is a hard boundary: what is in
    the buffer leaves as one block, trimmed and not split into
    sentences (nothing leaves if the buffer is blank), and the buffer
    that is left is blank. *)
Theorem blank_text_with_newline_flushes (text buf : jsstring)
    (res : list block) :
  forallb is_space text = true -> has_newline text = true ->
  let st := processTextNode text buf res in
  results st =
    res ++ (if truthy (trim buf) then [TextBlock (trim buf)] else []) /\
  forallb is_space (buffer st) = true.
Proof.
  intros Hblank Hnl. cbv zeta. unfold processTextNode, splitTextIntoLines.
  pose proof (lines_blank text [] Hblank eq_refl) as Hlines.
  destruct (lines_after_newline text [] Hnl) as (l1 & l2 & ls & E).
  rewrite E in *. inversion Hlines as [|? ? H1 Hrest]; subst.
  rewrite processLines_cons2.
  set (st1 := accumulateLine l1 {| buffer := buf; results := res |}).
  destruct (processLines_blank (l2 :: ls)
              (flushLineBuffer (buffer st1) (results st1)) Hrest eq_refl)
    as [E1 E2].
  rewrite E1. split; [|exact E2].
  unfold st1, accumulateLine. rewrite (blank_no_punct _ H1).
  unfold flushLineBuffer. cbn [buffer results].
  rewrite (trim_app_blank buf l1 H1).
  destruct (truthy (trim buf)); [reflexivity | now rewrite app_nil_r].
Qed.

Lemma blank_text_with_newline_flushes_witness :
  results (processTextNode [NL; SP; SP] (str "One. two") []) =
  [TextBlock (str "One. two")].
Proof.
  destruct (blank_text_with_newline_flushes [NL; SP; SP] (str "One. two")
              [] eq_refl eq_refl) as [H _].
  rewrite H. vm_compute. reflexivity.
Defined.

(** ** From extraction to presentation *)

Lemma textContent_block_element (b : block) :
  textContent (block_element b) = blockText b.
Proof.
  destruct b as [s | e]; [|reflexivity].
  apply textContent_setTextContent.
Qed.

(** X16: of the elements that the extraction returns, the presentation
    displays exactly those whose text is not blank, in order: every
    sentence is displayed, and a preserved element is displayed if and
    only if it has text other than white space (a thematic break
    without text is extracted and never displayed). *)
Theorem presentation_displays_blocks_with_text
    (getComputedStyle : element -> style) (body : element) :
  textElements (extractVisibleTextualContent getComputedStyle body) =
    map block_element
      (filter has_text (processContainer getComputedStyle body)) /\
  Forall (fun b => match b with
                   | TextBlock _ => has_text b = true
                   | PreservedElement _ => True
                   end)
    (processContainer getComputedStyle body).
Proof.
  split.
  - unfold extractVisibleTextualContent, textElements.
    induction (processContainer getComputedStyle body) as [|b bs IH];
      [reflexivity|].
    cbn [map filter]. rewrite textContent_block_element, IH.
    unfold has_text. rewrite length_positive_truthy.
    destruct (blockText b) as [|c s] eqn:E; [reflexivity|].
    cbn [truthy andb]. now destruct (truthy (trim (c :: s))).
  - eapply Forall_impl;
      [|apply (processContainer_well_formed getComputedStyle body)].
    intros [s | e] H; [|exact I]. destruct H as [Hne Htrim].
    unfold has_text. cbn [blockText]. rewrite Htrim. now destruct s.
Qed.

(** ** Fragments, one at a time *)

Lemma run_all (p : codeunit -> bool) (s : jsstring) :
  forallb p s = true -> takeWhile p s = s /\ dropWhile p s = [].
Proof.
  intros H. destruct (dropWhile_app_stop p s [] H I) as [E1 E2].
  now rewrite app_nil_r in E1, E2.
Qed.

(** The first fragment is a prefix of what is scanned, scanning the
    prefix alone gives that fragment only, and the other fragments are
    those of the rest. *)
Lemma splitLoop_first (text current f : jsstring) (fragments : list jsstring) :
  splitLoop text current [] = f :: fragments ->
  exists x rest,
    text = x ++ rest /\ f = current ++ x /\
    splitLoop x current [] = [f] /\
    fragments = splitLoop rest [] [].
Proof.
  revert current f fragments.
  induction text as [| c rest Hc IH | c rest Hc IH] using splitLoop_ind;
    intros current f fragments H.
  - rewrite splitLoop_nil in H. destruct (truthy (trim current)) eqn:E;
      [|discriminate].
    cbn [app] in H. injection H as <- <-. exists [], [].
    repeat split; [now rewrite app_nil_r | now rewrite splitLoop_nil, E].
  - rewrite splitLoop_plain in H by exact Hc.
    destruct (IH _ _ _ H) as (x & r & -> & -> & Hx & ->).
    exists (c :: x), r. rewrite splitLoop_plain by exact Hc.
    repeat split; [now rewrite <- app_assoc|].
    rewrite Hx. now rewrite <- app_assoc.
  - rewrite splitLoop_punct in H by exact Hc. cbv zeta in H.
    pose proof (takeWhile_dropWhile is_punct rest) as Hsplit.
    pose proof (takeWhile_all is_punct rest) as Hrun.
    set (run := takeWhile is_punct rest) in *.
    destruct (completes (dropWhile is_punct rest)) eqn:Hcomp.
    + rewrite splitLoop_sentences in H. cbn [app] in H.
      injection H as <- <-.
      exists (c :: run), (dropWhile is_punct rest).
      rewrite splitLoop_punct by exact Hc. cbv zeta.
      destruct (run_all is_punct run Hrun) as [E1 E2]. rewrite E1, E2.
      cbn [completes].
      rewrite splitLoop_nil. cbn. rewrite Hsplit. now repeat split.
    + destruct (IH _ _ _ H) as (x & r & Hrest & -> & Hx & ->).
      exists (c :: run ++ x), r.
      rewrite splitLoop_punct by exact Hc. cbv zeta.
      assert (Hstop : match x with [] => True | d :: _ => is_punct d = false end).
      { destruct x as [|d x]; [exact I|].
        cbn [app] in Hrest. now apply dropWhile_head in Hrest. }
      destruct (dropWhile_app_stop is_punct run x Hrun Hstop) as [E1 E2].
      rewrite E1, E2.
      repeat split.
      * cbn [app]. rewrite <- Hsplit, Hrest, <- app_assoc. reflexivity.
      * rewrite <- app_assoc. reflexivity.
      * destruct x as [|d x].
        -- cbn [completes]. rewrite splitLoop_nil. cbn.
           now rewrite app_nil_r.
        -- rewrite Hrest in Hcomp. cbn [app completes] in Hcomp.
           cbn [completes]. rewrite Hcomp. exact Hx.
Qed.

Lemma fragments_are_fixed (s : jsstring) :
  Forall (fun f => splitBySentences f = [f]) (splitBySentences s).
Proof.
  assert (H : forall n s, length s <= n ->
                Forall (fun f => splitBySentences f = [f]) (splitBySentences s)).
  { clear s. induction n as [|n IH]; intros s Hlen.
    - destruct s; [constructor | simpl in Hlen; lia].
    - destruct (splitBySentences s) as [|f fragments] eqn:E; [constructor|].
      pose proof (splitLoop_not_blank s []) as Hnb.
      fold (splitBySentences s) in Hnb. rewrite E in Hnb.
      inversion Hnb as [|? ? Hf _]; subst.
      destruct (splitLoop_first s [] f fragments E)
        as (x & rest & -> & -> & Hx & ->).
      cbn [app] in *. constructor; [exact Hx|].
      apply IH. destruct x as [|c x]; [discriminate Hf|].
      rewrite length_app in Hlen. simpl in Hlen. lia. }
  apply (H (length s)). lia.
Qed.

(** X17: every fragment that the splitter returns is a fixed point of
    the splitter: split again, it comes back as the single fragment. *)
Theorem splitBySentences_fragments_fixed (s : jsstring) :
  Forall (fun f => splitBySentences f = [f]) (splitBySentences s).
Proof. apply fragments_are_fixed. Qed.

(** X18: the splitter works front to back: when it returns a first
    fragment, the text is that fragment followed by a rest, and the
    other fragments are exactly the fragments of the rest. *)
Theorem splitBySentences_head (s f : jsstring) (fragments : list jsstring) :
  splitBySentences s = f :: fragments ->
  exists rest, s = f ++ rest /\ fragments = splitBySentences rest.
Proof.
  intros H. destruct (splitLoop_first s [] f fragments H)
    as (x & rest & -> & -> & _ & ->).
  now exists rest.
Qed.

Lemma splitBySentences_head_witness :
  exists rest,
    str "One. Two" = str "One." ++ rest /\
    [str " Two"] = splitBySentences rest.
Proof.
  apply (splitBySentences_head (str "One. Two") (str "One.") [str " Two"]).
  vm_compute. reflexivity.
Defined.

(** ** A text node on its own *)

Lemma textBlocks_app (a b : list jsstring) :
  textBlocks (a ++ b) = textBlocks a ++ textBlocks b.
Proof. unfold textBlocks. now rewrite map_app, filter_app, map_app. Qed.

Lemma textBlocks_one (f : jsstring) :
  textBlocks [f] = if truthy (trim f) then [TextBlock (trim f)] else [].
Proof. unfold textBlocks. cbn. now destruct (truthy (trim f)). Qed.

(** A line that meets an empty buffer leaves, by either flush, the
    text blocks of its own fragments. *)
Lemma accumulateLine_alone (line : jsstring) (res : list block) :
  let st := accumulateLine line {| buffer := []; results := res |} in
  finish st = res ++ textBlocks (splitBySentences line) /\
  results (flushLineBuffer (buffer st) (results st)) =
    res ++ textBlocks (splitBySentences line).
Proof.
  cbv zeta. unfold accumulateLine. cbn [buffer results].
  destruct (test_punct line) eqn:Hp.
  - unfold processLineForSentences. cbv zeta. cbn [app].
    assert (Hne : splitBySentences line <> [])
      by now apply splitBySentences_punct_nonempty.
    destruct (exists_last Hne) as (front & f & E).
    pose proof (splitLoop_not_blank line []) as Hnb.
    fold (splitBySentences line) in Hnb.
    pose proof (fragments_are_fixed line) as Hfix.
    rewrite E in Hnb, Hfix.
    apply Forall_app in Hnb as [_ Hnb]. apply Forall_app in Hfix as [_ Hfix].
    inversion Hnb as [|? ? Hf _]; subst. inversion Hfix as [|? ? Hff _]; subst.
    unfold not_blank in Hf.
    destruct (Nat.ltb 1 (length (splitBySentences line))) eqn:Hlen.
    + rewrite E. destruct (last_index _ front f []) as [-> ->].
      rewrite pushSentences_textBlocks, textBlocks_app.
      unfold finish, flushLineBuffer. cbn [buffer results].
      rewrite processBufferToResults_textBlocks, Hff, Hf.
      rewrite textBlocks_one, Hf, <- !app_assoc. now split.
    + assert (front = []) as ->.
      { rewrite E, length_app in Hlen. apply Nat.ltb_ge in Hlen.
        simpl in Hlen. destruct front; [reflexivity | simpl in Hlen; lia]. }
      cbn [app] in E. unfold finish, flushLineBuffer. cbn [buffer results].
      rewrite processBufferToResults_textBlocks. split; [reflexivity|].
      destruct (splitLoop_concat line [] []) as (w & Hw & Ew).
      fold (splitBySentences line) in Ew. rewrite E in Ew. cbn in Ew.
      rewrite app_nil_r in Ew.
      assert (Ht : trim line = trim f)
        by (rewrite <- Ew; now apply trim_app_blank).
      rewrite E, textBlocks_one, <- Ht. rewrite <- Ht in Hf.
      now rewrite Hf.
  - unfold finish, flushLineBuffer. cbn [buffer results].
    rewrite processBufferToResults_textBlocks. split; [reflexivity|].
    unfold splitBySentences. rewrite (splitLoop_no_punct line [] Hp).
    cbn [app]. destruct (truthy (trim line)) eqn:E.
    + now rewrite textBlocks_one, E.
    + cbn. now rewrite app_nil_r.
Qed.

Lemma processLines_alone (lines : list jsstring) (res : list block) :
  finish (processLines lines {| buffer := []; results := res |}) =
  res ++ flat_map (fun l => textBlocks (splitBySentences l)) lines.
Proof.
  revert res. induction lines as [|line rest IH]; intros res.
  - cbn. unfold finish, processBufferToResults. cbn. now rewrite app_nil_r.
  - destruct (accumulateLine_alone line res) as [Hend Hflush].
    destruct rest as [|line' rest].
    + cbn [processLines flat_map]. cbv zeta. rewrite Hend.
      now rewrite app_nil_r.
    + rewrite processLines_cons2. unfold flushLineBuffer in *.
      cbn [buffer results] in *. rewrite Hflush, IH.
      cbn [flat_map]. now rewrite <- app_assoc.
Qed.

(** X19: a container that holds one text node and nothing else returns,
    line by line, the trimmed non-blank fragments of each line: when
    the buffer holds nothing from before the text node, the flush at a
    newline and the flush at the end of the container give the same
    blocks as the splitter. *)
Theorem text_node_alone (getComputedStyle : element -> style) t a
    (text : jsstring) :
  processContainer getComputedStyle (Element t a [TextNode text]) =
  flat_map (fun line => textBlocks (splitBySentences line))
    (splitTextIntoLines text).
Proof.
  rewrite processContainer_traverse. cbn [traverse processChild].
  unfold processTextNode. cbn [buffer results initial].
  now rewrite processLines_alone.
Qed.

(** ** Nothing from nothing *)

Lemma visibleChars_nil_blank (s : jsstring) :
  visibleChars s = [] -> forallb is_space s = true.
Proof.
  induction s as [|c s IH]; [reflexivity|]. cbn [visibleChars filter forallb].
  destruct (is_space c); [exact IH | discriminate].
Qed.

(** X20: a container in which the traversal reads white space only
    returns no text block: every block it returns is a preserved
    element whose text is blank. *)
Theorem blank_container_has_no_text_block
    (getComputedStyle : element -> style) (c : element) :
  forallb is_space (shownText getComputedStyle c) = true ->
  Forall (fun b => match b with
                   | TextBlock _ => False
                   | PreservedElement e =>
                       forallb is_space (textContent e) = true
                   end)
    (processContainer getComputedStyle c).
Proof.
  intros Hblank.
  pose proof (blocksChars_processContainer getComputedStyle c) as Hc.
  rewrite (visibleChars_blank _ Hblank) in Hc.
  pose proof (processContainer_well_formed getComputedStyle c) as Hwf.
  unfold blocksChars in Hc.
  induction Hwf as [|b bs Hb Hbs IH]; [constructor|].
  cbn [map concat] in Hc. rewrite visibleChars_app in Hc.
  apply app_eq_nil in Hc as [Hb0 Hrest].
  constructor; [|now apply IH].
  apply visibleChars_nil_blank in Hb0.
  destruct b as [s | e]; [|exact Hb0].
  destruct Hb as [Hne Htrim]. cbn [blockText] in Hb0.
  apply trim_blank in Hb0. congruence.
Qed.

Lemma blank_container_has_no_text_block_witness :
  Forall (fun b => match b with
                   | TextBlock _ => False
                   | PreservedElement e =>
                       forallb is_space (textContent e) = true
                   end)
    (processContainer hiddenStyle
       (div [TextNode [NL; SP]; ElementNode hiddenSpan; ElementNode hr;
             CommentNode (str "note."); TextNode [SP]])).
Proof.
  apply blank_container_has_no_text_block. vm_compute. reflexivity.
Defined.
